(** * ai-prompter: the Block Composer (MessageBuilder) and the Turn Sequencer
    (PromptBuilder) of [src/index.ts], embedded in Rocq.

    Strings are Rocq strings, argument mappings (JS objects used as
    dictionaries) are [gmap string value], arrays are lists.  What the host
    language supplies (the text of a number, [JSON.stringify], what a plain
    object inherits from [Object.prototype]) is an interface, [Host].  Diagnostics written with [console.warn] are returned
    as a log next to the result; a call that can throw returns a
    [completion].

    The composer is embedded twice.  [MB] holds a nested composer inside
    its parent, by value; [PB], the sequencer, is built on it.  [Heap] keeps
    the composers as objects of a store, so that one composer can be a part
    of two: [build] writes to the mapping of every nested composer, which
    only the store can show.  [HeapFacts.build_refines] relates the two: on
    a store that holds a composer as a tree, the build on the store is the
    build by value.

    The file has the embedding first, then the definitions the statements
    need ([Spec]) and sample inputs ([Samples]), then the theorems. *)

From Stdlib Require Import Ascii.
From stdpp Require Import base option list strings pretty gmap.

Set Default Proof Using "Type".

(** ** The host language *)

(** [number] and [object] are the JS numbers and the JS values whose
    [typeof] is ["object"]; their text forms are the host's.

    An argument mapping is a plain object, so it inherits the properties of
    [Object.prototype]: [constructor], [toString], [__proto__] and the
    like.  [Object_prototype name] is, for such a name, the text of the
    inherited value where a template is substituted with it (the source
    text of a function, the [JSON.stringify] of [Object.prototype] itself
    for [__proto__]); it is [None] for every other name. *)
Class Host := {
  number : Type;
  object : Type;
  Number_toString : number → string;
  JSON_stringify : object → string;
  Object_prototype : string → option string;
}.

(** ** Strings: [split], [join], [includes] *)

Module Str.

Definition nl : ascii := "010"%char.
Definition lbrace : ascii := "{"%char.
Definition rbrace : ascii := "}"%char.
Definition dquote : ascii := "034"%char.

(** [xs.join(sep)] *)
Fixpoint join (sep : string) (xs : list string) : string :=
  match xs with
  | [] => ""
  | [x] => x
  | x :: xs' => x +:+ sep +:+ join sep xs'
  end.

(** [s.split("\n")]: never empty, [""] splits into one empty line. *)
Fixpoint split_nl (s : string) : list string :=
  match s with
  | "" => [""]
  | String c s' =>
      if decide (c = nl) then "" :: split_nl s'
      else match split_nl s' with
           | [] => [String c ""]
           | l :: ls => String c l :: ls
           end
  end.

Fixpoint starts_with (p s : string) : bool :=
  match p, s with
  | "", _ => true
  | String a p', String b s' => if decide (a = b) then starts_with p' s' else false
  | String _ _, "" => false
  end.

(** [s.includes(p)] *)
Fixpoint includes (p s : string) : bool :=
  starts_with p s ||
  match s with
  | "" => false
  | String _ s' => includes p s'
  end.

(** the characters of [s] satisfy [P] *)
Fixpoint all_chars (P : ascii → bool) (s : string) : bool :=
  match s with
  | "" => true
  | String c s' => P c && all_chars P s'
  end.

Definition newline : string := String nl "".

End Str.

(** ** Values *)

Section Values.
Context `{Host}.

(** The scalars of [MessageInput]: [string | number | boolean]. *)
Inductive scalar :=
  | SStr (s : string)
  | SNum (n : number)
  | SBool (b : bool).

(** A value of an argument mapping ([any]): a scalar or an object. *)
Inductive value :=
  | VScalar (s : scalar)
  | VObject (o : object).

(** The text of a scalar in a template literal, [`${v}`]. *)
Definition scalar_text (v : scalar) : string :=
  match v with
  | SStr s => s
  | SNum n => Number_toString n
  | SBool true => "true"
  | SBool false => "false"
  end.

(** [_stringifyValue(val)] followed by the conversion to a string that every
    caller applies to it (a template literal, or [replace] on the result of
    its callback): objects go through [JSON.stringify]. *)
Definition _stringifyValue (val : value) : string :=
  match val with
  | VObject o => JSON_stringify o
  | VScalar s => scalar_text s
  end.

(** ** Template substitution: [_buildTemplate] *)

(** The longest run of characters other than [}], and what follows it:
    the greedy [[^}]+] of the pattern. *)
Fixpoint span_name (s : string) : string * string :=
  match s with
  | "" => ("", "")
  | String c s' =>
      if decide (c = Str.rbrace) then ("", s)
      else let '(n, r) := span_name s' in (String c n, r)
  end.

(** A match of [/\{\{([^}]+)\}\}/] at the head of [s]: the captured name and
    the text after the match.  The run [[^}]+] is greedy and giving
    characters back never helps, as the next character is then not a [}]. *)
Definition match_at (s : string) : option (string * string) :=
  match s with
  | String c1 (String c2 t) =>
      if decide (c1 = Str.lbrace) then
        if decide (c2 = Str.lbrace) then
          match span_name t with
          | (String c n, String d1 (String d2 rest)) =>
              if decide (d1 = Str.rbrace) then
                if decide (d2 = Str.rbrace) then Some (String c n, rest)
                else None
              else None
          | _ => None
          end
        else None
      else None
  | _ => None
  end.

(** [`Template argument "${p1}" not found in args`] *)
Definition warning (p1 : string) : string :=
  "Template argument " +:+ String Str.dquote p1
  +:+ String Str.dquote " not found in args".

(** [template.replace(re, callback)] with the global flag: the leftmost match
    is replaced and the scan goes on after it; a character at which no match
    starts is copied.  The second component is the [console.warn] log.  The
    scan goes on in a shorter text each time, so fuel above the length of
    the text is never used up ([replace_go_fuel]).

    [p1 in args] holds of a key of the mapping and of a name that the
    mapping inherits from [Object.prototype]; [args[p1]] is then the value
    of the key, or else the inherited value. *)
Fixpoint replace_go (fuel : nat) (args : gmap string value) (s : string)
  : string * list string :=
  match fuel with
  | 0 => (s, [])
  | S fuel' =>
      match match_at s with
      | Some (p1, rest) =>
          let '(out, log) := replace_go fuel' args rest in
          match args !! p1, Object_prototype p1 with
          | Some v, _ => (_stringifyValue v +:+ out, log)
          | None, Some inherited => (inherited +:+ out, log)
          | None, None => ("{{" +:+ p1 +:+ "}}" +:+ out, warning p1 :: log)
          end
      | None =>
          match s with
          | "" => ("", [])
          | String c s' =>
              let '(out, log) := replace_go fuel' args s' in (String c out, log)
          end
      end
  end.

Definition _buildTemplate (template : string) (args : gmap string value)
  : string * list string :=
  replace_go (S (String.length template)) args template.

End Values.

Arguments _buildTemplate : simpl never.

(** ** Completions *)

(** How a call that may throw ends: the receiver after the call, and the
    message of the [Error] when one was thrown. *)
Inductive completion (S : Type) :=
  | Normal (s : S)
  | Thrown (s : S) (message : string).
Arguments Normal {S} s.
Arguments Thrown {S} s message.

(** ** The Block Composer: [class MessageBuilder] *)

Module MB.
Section MessageBuilder.
Context `{Host}.

(** A composer: [customIndent], [args] and [_parts]; a part is a scalar or
    a nested composer.  The mapping of a composer is held by value: the
    object that [msg(undefined, this.args)] shares with the parent until
    the first build is a copy here. *)
Inductive MessageBuilder : Type :=
  | Builder (customIndent : option string) (args : gmap string value)
      (_parts : list part)
with part : Type :=
  | PValue (v : scalar)
  | PBuilder (b : MessageBuilder).

Definition customIndent (this : MessageBuilder) : option string :=
  match this with Builder ci _ _ => ci end.
Definition args (this : MessageBuilder) : gmap string value :=
  match this with Builder _ a _ => a end.
Definition _parts (this : MessageBuilder) : list part :=
  match this with Builder _ _ ps => ps end.

(** [this._parts.push(p)] *)
Definition push (p : part) (this : MessageBuilder) : MessageBuilder :=
  match this with Builder ci a ps => Builder ci a (ps ++ [p]) end.

(** [{ ...parent, ...child }]: the keys of the child win. *)
Definition merge (parent child : gmap string value) : gmap string value :=
  child ∪ parent.

(** A function value: whether it was declared [async] (its constructor is
    then [AsyncFunction]), its source text ([fn.toString()]), what a call
    does to the composer it is handed before the call returns, and what the
    rest of an [async] body does to it before the returned promise settles.
    A callback is taken not to throw.  The composer it is handed holds the
    mapping object of the caller itself ([msg(undefined, this.args)]), and
    a callback is taken to leave that object as it is: it can add parts and
    can give the composer another mapping ([b.args = {...}]), which [run]
    shows, and it does not write into the mapping it finds ([b.args.k = v]
    would write the mapping of the caller). *)
Record callback := {
  is_async : bool;
  source : string;
  run : MessageBuilder → MessageBuilder;
  settle : MessageBuilder → MessageBuilder;
}.

(** [_Input]: what [add] and the message methods are called with. *)
Inductive input :=
  | IScalar (v : scalar)
  | IBuilder (b : MessageBuilder)
  | IFunction (fn : callback).

(** [fn instanceof Promise], for a value whose [typeof] is ["function"]:
    a function object is no promise. *)
Definition instanceof_Promise (fn : callback) : bool := false.

(** The four tests of [isAsyncFunction], in the order of the source: an
    instance of [Promise], a constructor named [AsyncFunction], a source
    text that includes ["async"], the tag [[object AsyncFunction]]. *)
Definition isAsyncFunction (fn : callback) : bool :=
  instanceof_Promise fn
  || is_async fn
  || Str.includes "async" (source fn)
  || is_async fn.

(** [msg(initial, args)]; an empty [initial] string is falsy and not added. *)
Definition msg (initial : option (string + MessageBuilder))
    (a : gmap string value) : MessageBuilder :=
  let message := Builder None a [] in
  match initial with
  | Some (inl s) => if decide (s = "") then message else push (PValue (SStr s)) message
  | Some (inr b) => push (PBuilder b) message
  | None => message
  end.

(** [this.add(message)].  With a function, the value of the call [fn(_message)]
    (a promise, when [fn] is [async]) is dropped, and the child is appended
    as the call left it: this is the composer when [add] returns.  What the
    rest of an [async] body does to the child once its promise settles
    comes after that, and is not in the composer that [add] returns. *)
Definition add (message : input) (this : MessageBuilder)
  : completion MessageBuilder :=
  match message with
  | IFunction fn =>
      if instanceof_Promise fn then
        Thrown this "Unsupported async message. Use addAsync instead."
      else
        let _message := run fn (msg None (args this)) in
        Normal (push (PBuilder _message) this)
  | IBuilder b => Normal (push (PBuilder b) this)
  | IScalar v => Normal (push (PValue v) this)
  end.

(** [await this.addAsync(fn)] *)
Definition addAsync (fn : callback) (this : MessageBuilder) : MessageBuilder :=
  let _message := settle fn (run fn (msg None (args this))) in
  push (PBuilder _message) this.

(** [this.addKv(key, value)] *)
Definition addKv (key : string) (value : input) (this : MessageBuilder)
  : completion MessageBuilder :=
  match value with
  | IFunction fn =>
      if instanceof_Promise fn then
        Thrown this "Unsupported async message. Use addKvAsync instead."
      else
        let _message := run fn (msg None (args this)) in
        Normal (push (PBuilder _message) (push (PValue (SStr (key +:+ ":"))) this))
  | IBuilder b =>
      Normal (push (PBuilder b) (push (PValue (SStr (key +:+ ":"))) this))
  | IScalar v =>
      Normal (push (PValue (SStr (key +:+ ": " +:+ scalar_text v))) this)
  end.

(** A composer in a template literal: the class defines [toJSON] and no
    [toString], so the conversion is the one of [Object.prototype]. *)
Definition toString (this : MessageBuilder) : string := "[object Object]".

(** [await this.addKvAsync(key, fn)] *)
Definition addKvAsync (key : string) (fn : callback) (this : MessageBuilder)
  : MessageBuilder :=
  let _message := settle fn (run fn (msg None (args this))) in
  push (PValue (SStr (key +:+ ": " +:+ toString _message))) this.

(** [str.split("\n").map((line) => `${int}${line}`).join("\n")] *)
Definition indent_lines (int str : string) : string :=
  Str.join Str.newline ((λ line, int +:+ line) <$> Str.split_nl str).

(** The callback of [this._parts.map(...)] run over the parts in order:
    the rendered parts, the warnings, and the parts afterwards.  [child]
    stands for [p.build(true, int)] on a nested composer [p] whose mapping
    has just been overwritten with the mapping handed to it. *)
Fixpoint map_parts
    (child : gmap string value → MessageBuilder → string * list string * MessageBuilder)
    (int : string) (withIntent : bool) (a : gmap string value)
    (ps : list part) : list string * list string * list part :=
  match ps with
  | [] => ([], [], [])
  | p :: ps' =>
      let '(str, log, p') :=
        match p with
        | PBuilder c =>
            let '(s, l, c') := child (merge a (args c)) c in (s, l, PBuilder c')
        | PValue v =>
            let '(s, l) := _buildTemplate (scalar_text v) a in (s, l, PValue v)
        end in
      let '(strs, logs, ps'') := map_parts child int withIntent a ps' in
      ((if withIntent then indent_lines int str else str) :: strs,
       log ++ logs, p' :: ps'')
  end.

(** [this.build(withIntent, indent)] for a composer whose [args] field holds
    [a]: the text, the warnings, and the composer after the call (the
    mapping of every nested composer is overwritten).  [global] is the
    static [MessageBuilder.indent] at the time of the call.  A nested
    composer is built right after its mapping is overwritten, so the new
    mapping is handed down as [a]. *)
Fixpoint build_with (global : string) (a : gmap string value)
    (withIntent : bool) (indent : option string) (this : MessageBuilder)
    {struct this} : string * list string * MessageBuilder :=
  match this with
  | Builder ci _ ps =>
      let int := default (default global ci) indent in
      let '(parts, log, ps') :=
        map_parts (λ a' c, build_with global a' true (Some int) c)
          int withIntent a ps in
      (Str.join Str.newline parts, log, Builder ci a ps')
  end.

Definition build_full (global : string) (withIntent : bool)
    (indent : option string) (this : MessageBuilder)
  : string * list string * MessageBuilder :=
  build_with global (args this) withIntent indent this.

(** The text of [this.build(withIntent, indent)]. *)
Definition build (global : string) (withIntent : bool)
    (indent : option string) (this : MessageBuilder) : string :=
  (build_full global withIntent indent this).1.1.

(** The composer after [this.build(withIntent, indent)]. *)
Definition after_build (global : string) (withIntent : bool)
    (indent : option string) (this : MessageBuilder) : MessageBuilder :=
  (build_full global withIntent indent this).2.

Definition toJSON (global : string) (this : MessageBuilder) : string :=
  build global false None this.

End MessageBuilder.
End MB.

(** ** The Turn Sequencer: [class PromptBuilder] *)

Module PB.
Import MB.
Section PromptBuilder.
Context `{Host}.

Inductive ChatMessageRole := assistant | user | system.

#[export] Instance ChatMessageRole_eq_dec : EqDecision ChatMessageRole.
Proof. solve_decision. Defined.

(** [`${role}`] *)
Definition role_text (r : ChatMessageRole) : string :=
  match r with
  | assistant => "assistant"
  | user => "user"
  | system => "system"
  end.

(** The content of a stored turn: the substituted text of a scalar input,
    or the composer itself. *)
Inductive stored_content :=
  | CText (s : string)
  | CBuilder (b : MessageBuilder).

(** An element of [_messages].  [extra] holds the caller-defined fields
    spread into the turn ([...options?.extra]) other than [role], [content]
    and [placeholder]. *)
Record message := {
  role : ChatMessageRole;
  content : stored_content;
  placeholder : option string;
  extra : gmap string value;
}.

(** [options.extra], of the caller's type [AIPrompter.BuildingPrompt]: its
    fields named [role], [content] and [placeholder], when it has them
    (each taken to hold a value of the type of that field of a turn; a
    field that is there and holds [undefined] is [Some None]), and its
    other fields.  A mapping of other fields is read as such an object:
    [∅] is [{}]. *)
Record extra_fields := {
  ex_role : option ChatMessageRole;
  ex_content : option stored_content;
  ex_placeholder : option (option string);
  ex_other : gmap string value;
}.

#[export] Instance extra_fields_empty : Empty extra_fields :=
  {| ex_role := None; ex_content := None; ex_placeholder := None;
     ex_other := ∅ |}.

#[export] Instance extra_fields_singleton : SingletonM string value extra_fields :=
  λ k v, {| ex_role := None; ex_content := None; ex_placeholder := None;
            ex_other := {[ k := v ]} |}.

(** The [options] argument; an absent [options] is [no_options]. *)
Record options := {
  opt_placeholder : option string;
  opt_extra : extra_fields;
}.
Definition no_options : options :=
  {| opt_placeholder := None; opt_extra := ∅ |}.

Record PromptBuilder := {
  args : gmap string value;
  _messages : list message;
}.

(** [this._messages.push(m)] *)
Definition push_message (m : message) (this : PromptBuilder) : PromptBuilder :=
  {| args := args this; _messages := _messages this ++ [m] |}.

(** [{ role, content, placeholder: options?.placeholder, ...options?.extra }]:
    the fields of [options.extra] are spread last, so a field of it named
    [role], [content] or [placeholder] takes the place of the one written
    before it. *)
Definition stored_turn (role : ChatMessageRole) (content : stored_content)
    (o : options) : message :=
  {| role := default role (ex_role (opt_extra o));
     content := default content (ex_content (opt_extra o));
     placeholder := default (opt_placeholder o) (ex_placeholder (opt_extra o));
     extra := ex_other (opt_extra o) |}.

(** [this._push(message, role, options)]: the test for an [async] callback
    comes before anything is stored.  The warnings of the substitution of a
    scalar are not kept. *)
Definition _push (message : input) (role : ChatMessageRole) (o : options)
    (this : PromptBuilder) : completion PromptBuilder :=
  match message with
  | IFunction fn =>
      if isAsyncFunction fn then
        Thrown this
          ("Async function cannot be used with non-async message method. Use "
           +:+ role_text role +:+ "MessageAsync instead.")
      else
        let _message := run fn (msg None (args this)) in
        Normal (push_message (stored_turn role (CBuilder _message) o) this)
  | IBuilder b =>
      Normal (push_message (stored_turn role (CBuilder b) o) this)
  | IScalar v =>
      Normal (push_message
                (stored_turn role
                   (CText (_buildTemplate (scalar_text v) (args this)).1) o)
                this)
  end.

(** [await this._pushAsync(message, role, options)] *)
Definition _pushAsync (message : callback) (role : ChatMessageRole)
    (o : options) (this : PromptBuilder) : PromptBuilder :=
  let _message := settle message (run message (msg None (args this))) in
  push_message (stored_turn role (CBuilder _message) o) this.

Definition userMessage (message : input) (o : options) := _push message user o.
Definition assistantMessage (message : input) (o : options) := _push message assistant o.
Definition systemMessage (message : input) (o : options) := _push message system o.
Definition userMessageAsync (message : callback) (o : options) := _pushAsync message user o.
Definition assistantMessageAsync (message : callback) (o : options) :=
  _pushAsync message assistant o.
Definition systemMessageAsync (message : callback) (o : options) :=
  _pushAsync message system o.

(** [MessageFilter], as it is called: with the stored turn itself. *)
Definition MessageFilter : Type := message → bool.

(** [filter ? (e) => filter(e) : () => true] *)
Definition _filter (filter : option MessageFilter) : message → bool :=
  match filter with
  | Some f => f
  | None => λ _, true
  end.

(** [ChatMessage]: an element of the array [build] returns, and of the
    array [buildForAssistant] makes first, where it holds the [placeholder]
    of the turn. *)
Record ChatMessage := {
  cm_role : ChatMessageRole;
  cm_content : string;
  cm_placeholder : option string;
}.

Record ThreadMessage := {
  tm_role : ChatMessageRole;
  tm_content : string;
}.

(** The body of the [map] callback of both builds: the text of the turn,
    the warnings, and the turn afterwards (the mapping of a composer is
    overwritten with the merged one). *)
Definition resolve (global : string) (this_args : gmap string value)
    (m : message) : ChatMessage * list string * message :=
  match content m with
  | CBuilder b =>
      let '(text, log, b') :=
        build_with global (merge this_args (MB.args b)) false None b in
      ({| cm_role := role m; cm_content := text; cm_placeholder := placeholder m |},
       log,
       {| role := role m; content := CBuilder b';
          placeholder := placeholder m; extra := extra m |})
  | CText s =>
      ({| cm_role := role m; cm_content := s; cm_placeholder := placeholder m |},
       [], m)
  end.

(** [this._messages.filter(_filter).map(...)] *)
Definition resolved (global : string) (filter : option MessageFilter)
    (this : PromptBuilder) : list ChatMessage :=
  (λ m, (resolve global (args this) m).1.1) <$> List.filter (_filter filter) (_messages this).

(** The sequencer after a build: the turns that passed the filter hold
    their composer with its mapping overwritten. *)
Definition after_build (global : string) (filter : option MessageFilter)
    (this : PromptBuilder) : PromptBuilder :=
  {| args := args this;
     _messages :=
       (λ m, if _filter filter m then (resolve global (args this) m).2 else m)
         <$> _messages this |}.

(** [this.build(filter)]: [{ role, content }] of every turn that passes;
    the objects have no [placeholder]. *)
Definition build (global : string) (filter : option MessageFilter)
    (this : PromptBuilder) : list ChatMessage :=
  (λ c, {| cm_role := cm_role c; cm_content := cm_content c;
           cm_placeholder := None |})
    <$> resolved global filter this.

(** A non-empty string is truthy. *)
Definition truthy (p : option string) : bool :=
  match p with
  | Some s => bool_decide (s ≠ "")
  | None => false
  end.

(** One turn of the [for] loop of [buildForAssistant] on the two arrays
    [contextParts] and [msgs]. *)
Definition partition_step (acc : list string * list ThreadMessage)
    (message : ChatMessage) : list string * list ThreadMessage :=
  let '(contextParts, msgs) := acc in
  if decide (cm_role message = system) then
    (contextParts ++ [cm_content message], msgs)
  else
    let contextParts' :=
      if truthy (cm_placeholder message)
      then contextParts ++ [default "" (cm_placeholder message)]
      else contextParts in
    (contextParts',
     msgs ++ [{| tm_role := cm_role message; tm_content := cm_content message |}]).

Record assistant_build := {
  messages : list ThreadMessage;
  context : option string;
}.

Definition buildForAssistant (global : string) (filter : option MessageFilter)
    (this : PromptBuilder) : assistant_build :=
  let '(contextParts, msgs) :=
    foldl partition_step ([], []) (resolved global filter this) in
  {| messages := msgs;
     context :=
       if decide (0 < length contextParts)
       then Some (Str.join Str.newline contextParts)
       else None |}.

End PromptBuilder.
End PB.

(** ** The Block Composer with object identity

    [MB] holds a nested composer inside its parent, which is how a composer
    behaves while no composer object is attached at two places.  [build]
    assigns to [p.args] of every nested composer, so a composer that is
    reachable along two paths is written twice.  Here a composer is an
    object of a store and a part refers to it by its address. *)

Module Heap.
Import MB.
Section Store.
Context `{Host}.

Definition loc := nat.

Inductive ref_part :=
  | RValue (v : scalar)
  | RRef (l : loc).

Record instance := {
  h_customIndent : option string;
  h_args : gmap string value;
  h_parts : list ref_part;
}.

Definition set_args (a : gmap string value) (o : instance) : instance :=
  {| h_customIndent := h_customIndent o; h_args := a; h_parts := h_parts o |}.

(** The callback of [this._parts.map(...)] run over the parts in order, on
    the store.  [this.args] is read at every part; [child] stands for
    [p.build(true, int)]. *)
Fixpoint map_parts
    (child : gmap loc instance → loc → option (string * list string * gmap loc instance))
    (this : loc) (int : string) (withIntent : bool)
    (ps : list ref_part) (h : gmap loc instance)
  : option (list string * list string * gmap loc instance) :=
  match ps with
  | [] => Some ([], [], h)
  | p :: ps' =>
      me ← h !! this;
      '(str, log, h1) ←
        match p with
        | RRef c =>
            pc ← h !! c;
            child (<[c := set_args (merge (h_args me) (h_args pc)) pc]> h) c
        | RValue v =>
            let '(s, l) := _buildTemplate (scalar_text v) (h_args me) in
            Some (s, l, h)
        end;
      '(strs, logs, h2) ← map_parts child this int withIntent ps' h1;
      Some ((if withIntent then indent_lines int str else str) :: strs,
            log ++ logs, h2)
  end.

(** [this.build(withIntent, indent)] on the object at [this].  [fuel]
    bounds the depth of the nested calls: a composer that contains itself
    never returns.  [None] is such a run, or a part that refers to no
    object. *)
Fixpoint build (fuel : nat) (global : string) (h : gmap loc instance)
    (this : loc) (withIntent : bool) (indent : option string)
  : option (string * list string * gmap loc instance) :=
  match fuel with
  | 0 => None
  | S fuel' =>
      o ← h !! this;
      let int := default (default global (h_customIndent o)) indent in
      '(parts, log, h') ←
        map_parts (λ h c, build fuel' global h c true (Some int))
          this int withIntent (h_parts o) h;
      Some (Str.join Str.newline parts, log, h')
  end.

End Store.
End Heap.

(** * Specifications

    What the theorems below speak of: what the specification says of a
    template, of the lines of a composer and of the context of a sequencer;
    the stores that hold a composer as a tree. *)

Module Spec.

(** ** Templates *)

Section Templates.
Import Str.
Context `{Host}.

(** [s] holds no line break. *)
Definition one_line (s : string) : Prop :=
  all_chars (λ c, bool_decide (c ≠ nl)) s = true.

Definition not_lbrace (c : ascii) : bool := bool_decide (c ≠ lbrace).
Definition not_rbrace (c : ascii) : bool := bool_decide (c ≠ rbrace).

(** A template as its author writes it: stretches of text and placeholders
    [{{name}}]. *)
Inductive segment :=
  | Text (t : string)
  | Placeholder (name : string).




(** [t.endsWith("{")] *)
Fixpoint ends_with_lbrace (t : string) : bool :=
  match t with
  | "" => false
  | String c "" => bool_decide (c = lbrace)
  | String _ t' => ends_with_lbrace t'
  end.

(** A stretch of text holds no two adjacent opening braces and does not end
    with one (single braces, as in [{name}], are text); the name of a
    placeholder is not empty and holds no closing brace. *)
Definition well_formed (seg : segment) : bool :=
  match seg with
  | Text t => negb (includes "{{" t) && negb (ends_with_lbrace t)
  | Placeholder name =>
      bool_decide (name ≠ "") && all_chars not_rbrace name
  end.




End Templates.

(** ** Composers *)

Section Composers.
Import Str MB.
Context `{Host}.

(** [P] holds of the part, when the part is a nested composer. *)
Definition on_nested (P : MessageBuilder → Prop) (p : part) : Prop :=
  match p with
  | PBuilder c => P c
  | PValue _ => True
  end.

Definition and_then {S : Type} (c : completion S) (f : S → completion S)
  : completion S :=
  match c with
  | Normal s => f s
  | Thrown s m => Thrown s m
  end.

(** [this.add(v1); this.add(v2); ...] *)
Definition add_scalars (vs : list scalar) (this : MessageBuilder)
  : completion MessageBuilder :=
  foldl (λ c v, and_then c (add (IScalar v))) (Normal this) vs.

(** [int] repeated [d] times. *)
Fixpoint rep (int : string) (d : nat) : string :=
  match d with
  | 0 => ""
  | S d' => int +:+ rep int d'
  end.

(** The lines that one part of a composer at nesting depth [d] gives, as the
    specification describes them: each line of a scalar part behind [d]
    copies of the indentation; the lines of a nested composer, which stand
    one level deeper; a nested composer with no line gives one empty line
    at the depth of its parent.  [child] gives the lines of a nested
    composer. *)
Definition piece_lines
    (child : nat → gmap string value → MessageBuilder → list string)
    (int : string) (d : nat) (a : gmap string value) (p : part) : list string :=
  match p with
  | PValue v =>
      (λ line, rep int d +:+ line) <$> split_nl (_buildTemplate (scalar_text v) a).1
  | PBuilder c =>
      match child (S d) (merge a (args c)) c with
      | [] => [rep int d]
      | ls => ls
      end
  end.

(** The lines of a composer whose own parts stand at depth [d], when its
    mapping is [a]. *)
Fixpoint lines (int : string) (d : nat) (a : gmap string value)
    (this : MessageBuilder) {struct this} : list string :=
  match this with
  | Builder _ _ ps =>
      concat (piece_lines (λ d' a' c, lines int d' a' c) int d a <$> ps)
  end.

(** [n] composers around one another, around a composer that holds one
    scalar: [new MessageBuilder().add(new MessageBuilder().add(...))]. *)
Fixpoint nested (n : nat) (inner : MessageBuilder) : MessageBuilder :=
  match n with
  | 0 => inner
  | S n' => Builder None ∅ [PBuilder (nested n' inner)]
  end.

(** The composer with [g] applied to the [customIndent] of the composer and
    of every composer nested in it, and the composer with [g] applied to
    those of the nested composers only. *)
Fixpoint map_indents (g : option string → option string)
    (this : MessageBuilder) {struct this} : MessageBuilder :=
  match this with
  | Builder ci a ps =>
      Builder (g ci) a
        ((λ p, match p with
               | PBuilder c => PBuilder (map_indents g c)
               | PValue v => PValue v
               end) <$> ps)
  end.

Definition reindent_part (g : option string → option string) (p : part) : part :=
  match p with
  | PBuilder c => PBuilder (map_indents g c)
  | PValue v => PValue v
  end.

Definition map_nested_indents (g : option string → option string)
    (this : MessageBuilder) : MessageBuilder :=
  match this with
  | Builder ci a ps => Builder ci a (reindent_part g <$> ps)
  end.

(** Composers around one another, each with its own indentation and
    mapping, the first of [scopes] outermost, around [inner]. *)
Fixpoint nested_in (scopes : list (option string * gmap string value))
    (inner : MessageBuilder) : MessageBuilder :=
  match scopes with
  | [] => inner
  | (ci, a) :: scopes' => Builder ci a [PBuilder (nested_in scopes' inner)]
  end.

(** The mappings of the composers on a path, outermost first, merged on the
    way down. *)
Definition scope (mappings : list (gmap string value)) : gmap string value :=
  foldl merge ∅ mappings.

(** The value of [k] in the innermost of the mappings that has the key. *)
Fixpoint nearest (k : string) (mappings : list (gmap string value))
  : option value :=
  match mappings with
  | [] => None
  | a :: inner =>
      match nearest k inner with
      | Some v => Some v
      | None => a !! k
      end
  end.

(** The composer in which every nested composer holds the mappings of the
    composers around it merged under its own, and the composer itself holds
    [a]. *)
Fixpoint inherit (a : gmap string value) (this : MessageBuilder)
    {struct this} : MessageBuilder :=
  match this with
  | Builder ci _ ps =>
      Builder ci a
        ((λ p, match p with
               | PBuilder c => PBuilder (inherit (merge a (args c)) c)
               | PValue v => PValue v
               end) <$> ps)
  end.

Definition inherit_part (a : gmap string value) (p : part) : part :=
  match p with
  | PBuilder c => PBuilder (inherit (merge a (args c)) c)
  | PValue v => PValue v
  end.

(** The text of one part of a composer whose mapping is [a] and whose
    indentation in effect is [int], before the part is indented. *)
Definition part_text (global int : string) (a : gmap string value)
    (p : part) : string :=
  match p with
  | PValue v => (_buildTemplate (scalar_text v) a).1
  | PBuilder c =>
      build global true (Some int)
        (Builder (customIndent c) (merge a (args c)) (_parts c))
  end.

(** The indentation in effect in [this.build(withIntent, indent)]. *)
Definition effective_indent (global : string) (indent : option string)
    (this : MessageBuilder) : string :=
  default (default global (customIndent this)) indent.

End Composers.

(** ** Stores *)

Section Stores.
Import Str MB Heap.
Context `{Host}.

(** The nesting depth of a composer: the number of nested [build] calls it
    takes. *)
Fixpoint depth (this : MessageBuilder) : nat :=
  match this with
  | Builder _ _ ps =>
      S (foldr (λ p m, match p with
                       | PBuilder c => depth c `max` m
                       | PValue _ => m
                       end) 0 ps)
  end.

Definition parts_depth (ps : list part) : nat :=
  foldr (λ p m, match p with
                | PBuilder c => depth c `max` m
                | PValue _ => m
                end) 0 ps.

Definition with_args (a : gmap string value) (this : MessageBuilder)
  : MessageBuilder :=
  match this with Builder ci _ ps => Builder ci a ps end.

(** [repr h l this F]: the object at [l] of the store [h] and the objects
    below it are the composer [this], they are the objects [F], and no
    object is reached twice: the composers nested in a composer occupy
    disjoint parts of the store, none of which holds the composer itself. *)
Inductive repr (h : gmap loc instance) : loc → MessageBuilder → gset loc → Prop :=
  | repr_builder l ci a rps ps F :
      h !! l = Some {| h_customIndent := ci; h_args := a; h_parts := rps |} →
      repr_parts h rps ps F →
      l ∉ F →
      repr h l (Builder ci a ps) ({[l]} ∪ F)
with repr_parts (h : gmap loc instance)
  : list ref_part → list part → gset loc → Prop :=
  | repr_nil : repr_parts h [] [] ∅
  | repr_value v rps ps F :
      repr_parts h rps ps F →
      repr_parts h (RValue v :: rps) (PValue v :: ps) F
  | repr_ref c this rps ps Fc F :
      repr h c this Fc →
      repr_parts h rps ps F →
      Fc ## F →
      repr_parts h (RRef c :: rps) (PBuilder this :: ps) (Fc ∪ F).

(** What the refinement says of one composer: on a store that holds it as
    a tree, with enough fuel for its depth, the build on the store returns
    the text and the warnings of the build by value, leaves the store
    holding the composer as the build by value leaves it, and writes to no
    other object. *)
Definition refines (global : string) (c : MessageBuilder) : Prop :=
  ∀ a h l F wi ind fuel,
    repr h l (with_args a c) F → depth c ≤ fuel →
    ∃ h', Heap.build fuel global h l wi ind
          = Some ((build_with global a wi ind c).1.1,
                  (build_with global a wi ind c).1.2, h')
       ∧ repr h' l (build_with global a wi ind c).2 F
       ∧ ∀ l', l' ∉ F → h' !! l' = h !! l'.

(** [this.build(withIntent, indent)] called twice in a row on the object at
    [this]: the two texts. *)
Definition build_twice (fuel : nat) (global : string) (h : gmap loc instance)
    (this : loc) (withIntent : bool) (indent : option string)
  : option (string * string) :=
  '(first, _, h1) ← Heap.build fuel global h this withIntent indent;
  '(second, _, _) ← Heap.build fuel global h1 this withIntent indent;
  Some (first, second).

(** What a build keeps of an object: its indentation and its parts; its
    mapping holds what it held. *)
Definition kept (o o' : instance) : Prop :=
  h_customIndent o' = h_customIndent o
  ∧ h_parts o' = h_parts o
  ∧ h_args o ⊆ h_args o'.

(** [h'] holds the objects of [h] and no other, each as [kept] says. *)
Definition grown (h h' : gmap loc instance) : Prop :=
  ∀ l, match h !! l, h' !! l with
       | Some o, Some o' => kept o o'
       | None, None => True
       | _, _ => False
       end.

(** The two stores hold the same objects with the same parts. *)
Definition same_parts (h h' : gmap loc instance) : Prop :=
  ∀ l, h_parts <$> h !! l = h_parts <$> h' !! l.

(** The mapping of the object at [c] has every key of the mapping of the
    object at [p]: merging the mapping of [p] under it changes nothing. *)
Definition edge_ok (h : gmap loc instance) (p c : loc) : Prop :=
  ∃ o oc, h !! p = Some o ∧ h !! c = Some oc
          ∧ dom (h_args o) ⊆ dom (h_args oc).

(** The objects [V] hold their nested composers among them, and every
    nested composer has the keys of the composer it is a part of. *)
Definition settled (h : gmap loc instance) (V : gset loc) : Prop :=
  ∀ p o c, p ∈ V → h !! p = Some o → RRef c ∈ h_parts o →
           c ∈ V ∧ edge_ok h p c.

(** [reaches h l l']: the composer at [l'] is a part of the composer at
    [l], or of a composer nested in it at any depth. *)
Inductive reaches (h : gmap loc instance) : loc → loc → Prop :=
  | reaches_part l o c :
      h !! l = Some o → RRef c ∈ h_parts o → reaches h l c
  | reaches_further l o c l' :
      h !! l = Some o → RRef c ∈ h_parts o → reaches h c l' → reaches h l l'.

(** The part refers to an object of the store whose rank is below the rank
    of [p]. *)
Definition below (rank : loc → nat) (h : gmap loc instance) (p : loc)
    (part : ref_part) : bool :=
  match part with
  | RRef c => bool_decide (is_Some (h !! c)) && bool_decide (rank c < rank p)
  | RValue _ => true
  end.

(** Every part of every object refers to an object, and the rank goes down
    from a composer to the composers nested in it: no composer is nested
    in itself. *)
Definition ranked (rank : loc → nat) (h : gmap loc instance) : Prop :=
  map_Forall (λ p o, forallb (below rank h p) (h_parts o) = true) h.

(** Every entry of a mapping of [h'] is an entry of the mapping that the
    same object has in [h], or of the mapping that a composer has in [h]
    in which the object is nested, at any depth. *)
Definition handed_down (h h' : gmap loc instance) : Prop :=
  ∀ l o' k v,
    h' !! l = Some o' → h_args o' !! k = Some v →
    ∃ l0 o0, (l0 = l ∨ reaches h l0 l)
             ∧ h !! l0 = Some o0 ∧ h_args o0 !! k = Some v.

End Stores.

(** ** Sequencers *)

Section Sequencers.
Import Str MB PB.
Context `{Host}.

(** What one built turn adds to the context: the text of a [system] turn;
    the placeholder of another turn, when it has a non-empty one. *)
Definition context_part (c : ChatMessage) : list string :=
  if decide (cm_role c = system) then [cm_content c]
  else if truthy (cm_placeholder c) then [default "" (cm_placeholder c)]
  else [].

(** What one built turn adds to [messages]. *)
Definition thread_part (c : ChatMessage) : list ThreadMessage :=
  if decide (cm_role c = system) then []
  else [{| tm_role := cm_role c; tm_content := cm_content c |}].

Definition with_placeholder (p : option string) (m : message) : message :=
  {| role := role m; content := content m; placeholder := p; extra := extra m |}.

(** The sequencer in which every [system] turn [m] carries the placeholder
    [g m] instead of its own. *)
Definition replace_system_placeholders (g : message → option string)
    (this : PromptBuilder) : PromptBuilder :=
  {| PB.args := PB.args this;
     _messages :=
       (λ m, if decide (role m = system) then with_placeholder (g m) m else m)
         <$> _messages this |}.

Definition without_placeholder (c : ChatMessage) : ChatMessage :=
  {| cm_role := cm_role c; cm_content := cm_content c; cm_placeholder := None |}.

(** The text of the content of a stored turn, as both builds resolve it:
    the stored text of a scalar; the text of the composer, built with the
    mapping [a] of the sequencer merged under its own. *)
Definition content_text (global : string) (a : gmap string value)
    (c : stored_content) : string :=
  match c with
  | CText s => s
  | CBuilder b =>
      MB.build global false None
        (Builder (customIndent b) (merge a (MB.args b)) (_parts b))
  end.

Definition stored_text (global : string) (a : gmap string value)
    (m : message) : string :=
  content_text global a (content m).

(** What the specification says a stored turn adds to the context: a
    [system] turn its resolved content, whatever placeholder it carries;
    another turn its placeholder, when it has a non-empty one. *)
Definition context_of_turn (global : string) (a : gmap string value)
    (m : message) : list string :=
  match role m with
  | system => [stored_text global a m]
  | _ =>
      match placeholder m with
      | Some p => if decide (p = "") then [] else [p]
      | None => []
      end
  end.

(** What a stored turn adds to the messages: nothing, when it is a [system]
    turn. *)
Definition message_of_turn (global : string) (a : gmap string value)
    (m : message) : list ThreadMessage :=
  match role m with
  | system => []
  | r => [{| tm_role := r; tm_content := stored_text global a m |}]
  end.

(** The sequencer that holds the turns that pass the filter, and no other. *)
Definition kept_turns (filter : option MessageFilter) (this : PromptBuilder)
  : PromptBuilder :=
  {| PB.args := PB.args this;
     _messages := List.filter (_filter filter) (_messages this) |}.

(** A scalar or a composer as the input of a message method. *)
Definition plain_input (m : scalar + MessageBuilder) : input :=
  match m with
  | inl v => IScalar v
  | inr b => IBuilder b
  end.

(** [this.userMessage(...)], [this.systemMessage(...)], ... called one
    after the other with scalars and composers: each call is an input, a
    role and the options. *)
Definition push_all
    (calls : list ((scalar + MessageBuilder) * ChatMessageRole * options))
    (this : PromptBuilder) : completion PromptBuilder :=
  foldl (λ c call, and_then c (_push (plain_input call.1.1) call.1.2 call.2))
    (Normal this) calls.

(** What [build] is to give for a call on a sequencer whose mapping is [a].
    The role is the one of the call, and the text is the scalar substituted
    with [a], or the text of the composer; when [options.extra] has a field
    [role] or [content], that one takes its place (a text given there is
    not substituted). *)
Definition turn_of (global : string) (a : gmap string value)
    (call : (scalar + MessageBuilder) * ChatMessageRole * options)
  : ChatMessage :=
  let given :=
    match call.1.1 with
    | inl v => CText (_buildTemplate (scalar_text v) a).1
    | inr b => CBuilder b
    end in
  {| cm_role := default call.1.2 (ex_role (opt_extra call.2));
     cm_content :=
       content_text global a (default given (ex_content (opt_extra call.2)));
     cm_placeholder := None |}.

Definition with_content (c : stored_content) (m : message) : message :=
  {| role := role m; content := c; placeholder := placeholder m;
     extra := extra m |}.

(** The filter decides on the role, the placeholder and the caller-defined
    fields of a turn, and not on its content. *)
Definition reads_no_content (filter : option MessageFilter) : Prop :=
  ∀ m c, _filter filter (with_content c m) = _filter filter m.

(** [{ role, content }] of an element of the array of [build]. *)
Definition thread_message (c : ChatMessage) : ThreadMessage :=
  {| tm_role := cm_role c; tm_content := cm_content c |}.

End Sequencers.

End Spec.

(** ** A host to run the definitions on

    Numbers are integers printed in decimal; an object is given by its JSON
    text.  The inherited names are the properties of [Object.prototype] of
    Node.js: [String(Object)] for [constructor], the text of the native
    method for a method, and [JSON.stringify(Object.prototype)], which is
    [{}], for [__proto__]. *)
Definition node_prototype (name : string) : option string :=
  if decide (name = "__proto__") then Some "{}"
  else if decide (name = "constructor")
  then Some "function Object() { [native code] }"
  else if bool_decide
            (name ∈ ["__defineGetter__"; "__defineSetter__"; "hasOwnProperty";
                     "__lookupGetter__"; "__lookupSetter__"; "isPrototypeOf";
                     "propertyIsEnumerable"; "toString"; "valueOf";
                     "toLocaleString"])
  then Some ("function " +:+ name +:+ "() { [native code] }")
  else None.

#[export] Instance sample_host : Host := {|
  number := Z;
  object := string;
  Number_toString := pretty;
  JSON_stringify := id;
  Object_prototype := node_prototype;
|}.

(** Sample composers, sequencers and stores. *)

Module Samples.
Import Str MB PB Heap.

Definition receiver {S : Type} (c : completion S) : S :=
  match c with
  | Normal s => s
  | Thrown s _ => s
  end.

(** [new MessageBuilder()] and [new PromptBuilder()] *)
Definition new_builder : MessageBuilder := Builder None ∅ [].
Definition new_prompt : PromptBuilder := {| PB.args := ∅; _messages := [] |}.

(** [(b) => { b.add(text) }] and [async (b) => { b.add(text) }] *)
Definition adds_text (text : string) : callback :=
  {| is_async := false;
     source := "(b) => { b.add(text) }";
     run := λ b, receiver (add (IScalar (SStr text)) b);
     settle := id |}.
Definition async_adds_text (text : string) : callback :=
  {| is_async := true;
     source := "async (b) => { b.add(text) }";
     run := λ b, receiver (add (IScalar (SStr text)) b);
     settle := id |}.

(** [new MessageBuilder(indent).add(inner)] *)
Definition around (indent : option string) (inner : MessageBuilder) : MessageBuilder :=
  Builder indent ∅ [PBuilder inner].

Definition text_builder (text : string) : MessageBuilder :=
  Builder None ∅ [PValue (SStr text)].

Definition question_only : PromptBuilder :=
  {| PB.args := ∅;
     _messages :=
       [{| role := user; content := CText "Q";
           placeholder := Some "<q>"; extra := ∅ |}] |}.

(** [(m) => typeof m.content === "string"] *)
Definition content_is_text : MessageFilter :=
  λ m, match content m with
       | CText _ => true
       | CBuilder _ => false
       end.

Definition one_built_turn : PromptBuilder :=
  {| PB.args := ∅;
     _messages :=
       [{| role := user; content := CBuilder (text_builder "x");
           placeholder := None; extra := ∅ |}] |}.

Definition deep_message : MessageBuilder :=
  around None (around None (around None (text_builder "Deep Message"))).

(** A composer whose indentation is a line break, around a composer around
    a composer with the text ["x"]. *)
Definition line_break_indent : MessageBuilder :=
  around (Some newline) (around None (text_builder "x")).

Definition instance_of (a : gmap string value) (ps : list ref_part) : instance :=
  {| h_customIndent := None; h_args := a; h_parts := ps |}.

(** [z = msg("{{a}} {{b}}")] is added to [x], whose mapping gives [a], and
    to [y], whose mapping gives [b]; [x] and [y] are added to the root. *)
Definition shared_child : gmap loc instance :=
  {[ 0 := instance_of ∅ [RRef 1; RRef 2];
     1 := instance_of {[ "a" := VScalar (SStr "1") ]} [RRef 3];
     2 := instance_of {[ "b" := VScalar (SStr "2") ]} [RRef 3];
     3 := instance_of ∅ [RValue (SStr "{{a}} {{b}}")] ]}.

(** The same composers with a copy of [z] for each parent. *)
Definition own_children : gmap loc instance :=
  {[ 0 := instance_of ∅ [RRef 1; RRef 2];
     1 := instance_of {[ "a" := VScalar (SStr "1") ]} [RRef 3];
     2 := instance_of {[ "b" := VScalar (SStr "2") ]} [RRef 4];
     3 := instance_of ∅ [RValue (SStr "{{a}} {{b}}")];
     4 := instance_of ∅ [RValue (SStr "{{a}} {{b}}")] ]}.

Definition own_children_tree : MessageBuilder :=
  Builder None ∅
    [PBuilder (Builder None {[ "a" := VScalar (SStr "1") ]}
                 [PBuilder (text_builder "{{a}} {{b}}")]);
     PBuilder (Builder None {[ "b" := VScalar (SStr "2") ]}
                 [PBuilder (text_builder "{{a}} {{b}}")])].

(** The objects of [own_children], as [repr] collects them. *)
Definition own_children_objects : gset loc :=
  {[0]} ∪ (({[1]} ∪ ({[3]} ∪ ∅ ∪ ∅)) ∪ (({[2]} ∪ ({[4]} ∪ ∅ ∪ ∅)) ∪ ∅)).

Definition setup_and_question : PromptBuilder :=
  {| PB.args := ∅;
     _messages :=
       [{| role := system; content := CText "Setup";
           placeholder := Some "<setup>"; extra := ∅ |};
        {| role := user; content := CText "Q";
           placeholder := Some "<q>"; extra := ∅ |}] |}.

(** [p.userMessage("Hello {{name}}");
     p.userMessage(msg("x"), { extra: { role: "system" } })] *)
Definition greeting_calls
  : list ((scalar + MessageBuilder) * ChatMessageRole * options) :=
  [(inl (SStr "Hello {{name}}"), user, no_options);
   (inr (text_builder "x"), user,
    {| opt_placeholder := None;
       opt_extra := {| ex_role := Some system; ex_content := None;
                       ex_placeholder := None; ex_other := ∅ |} |})].

(** [x.add(y); y.add("text"); y.add(x)] *)
Definition nested_in_itself : gmap loc instance :=
  {[ 0 := instance_of ∅ [RRef 1];
     1 := instance_of ∅ [RValue (SStr "text"); RRef 0] ]}.

Definition named_prompt : PromptBuilder :=
  {| PB.args := {[ "name" := VScalar (SStr "John") ]}; _messages := [] |}.

(** [(m) => m.role === "user"] *)
Definition user_turns : MessageFilter :=
  λ m, bool_decide (role m = user).

(** A synchronous callback with a parameter named [asyncData]. *)
Definition sync_named_async : callback :=
  {| is_async := false;
     source := "(asyncData) => { asyncData.add(text) }";
     run := λ b, receiver (add (IScalar (SStr "x")) b);
     settle := id |}.

End Samples.

(** * Facts about strings *)

Section StrFacts.
Import Str Spec.

Lemma app_cons (c : ascii) (s t : string) : String c s +:+ t = String c (s +:+ t).
Proof. done. Qed.

Lemma app_empty_l (s : string) : "" +:+ s = s.
Proof. done. Qed.

Lemma app_empty_r (s : string) : s +:+ "" = s.
Proof. induction s as [|c s IH]; [done|]. by rewrite app_cons, IH. Qed.

Lemma app_assoc' (s t u : string) : (s +:+ t) +:+ u = s +:+ t +:+ u.
Proof. induction s as [|c s IH]; [done|]. rewrite !app_cons. by rewrite IH. Qed.

Lemma split_nl_nonempty (s : string) : split_nl s ≠ [].
Proof.
  induction s as [|c s IH]; [done|]. cbn.
  case_decide; [done|]. by destruct (split_nl s).
Qed.

Lemma split_nl_app (s t : string) :
  split_nl (s +:+ String nl t) = split_nl s ++ split_nl t.
Proof.
  induction s as [|c s IH].
  - rewrite app_empty_l. cbn. by rewrite decide_True.
  - rewrite app_cons. cbn. rewrite IH. case_decide; [done|].
    pose proof (split_nl_nonempty s). by destruct (split_nl s).
Qed.

Lemma join_cons (sep x : string) (xs : list string) :
  xs ≠ [] → join sep (x :: xs) = x +:+ sep +:+ join sep xs.
Proof. by destruct xs. Qed.

Lemma join_app (sep : string) (xs ys : list string) :
  xs ≠ [] → ys ≠ [] →
  join sep (xs ++ ys) = join sep xs +:+ sep +:+ join sep ys.
Proof.
  intros Hxs Hys. induction xs as [|x xs IH]; [done|].
  destruct xs as [|x' xs].
  - cbn [app]. rewrite join_cons by done. reflexivity.
  - change ((x :: x' :: xs) ++ ys) with (x :: (x' :: xs) ++ ys).
    rewrite (join_cons _ x ((x' :: xs) ++ ys)) by done.
    rewrite (join_cons _ x (x' :: xs)) by done.
    rewrite IH by done. by rewrite !app_assoc'.
Qed.

Lemma join_split_nl (s : string) : join newline (split_nl s) = s.
Proof.
  induction s as [|c s IH]; [done|]. cbn [split_nl].
  pose proof (split_nl_nonempty s) as Hne. case_decide as Hc.
  - rewrite join_cons; [|done]. rewrite IH. by subst c.
  - destruct (split_nl s) as [|l ls]; [done|].
    destruct ls as [|l' ls]; cbn in IH |- *; by rewrite <- IH.
Qed.

Lemma split_nl_one_line (s : string) : one_line s → split_nl s = [s].
Proof.
  unfold one_line. induction s as [|c s IH]; [done|]. cbn.
  intros [Hc Hs]%andb_true_iff. apply bool_decide_eq_true in Hc.
  rewrite decide_False; [|done]. by rewrite IH.
Qed.

Lemma split_nl_lines (s : string) : Forall one_line (split_nl s).
Proof.
  induction s as [|c s IH]; [by repeat constructor|]. cbn.
  case_decide as Hc; [by constructor|].
  destruct (split_nl s) as [|l ls].
  { constructor; [|done]. unfold one_line. cbn. by rewrite bool_decide_eq_true_2. }
  inversion_clear IH as [|?? Hl Hls]. constructor; [|done].
  unfold one_line in *. cbn. by rewrite Hl, bool_decide_eq_true_2.
Qed.

Lemma one_line_app (s t : string) : one_line s → one_line t → one_line (s +:+ t).
Proof.
  unfold one_line. intros Hs Ht. induction s as [|c s IH]; [done|].
  rewrite app_cons. cbn in *. apply andb_true_iff in Hs as [-> Hs]. by apply IH.
Qed.

Lemma split_nl_join (xs : list string) :
  xs ≠ [] → Forall one_line xs → split_nl (join newline xs) = xs.
Proof.
  intros Hne Hxs. induction Hxs as [|x xs Hx Hxs IH]; [done|].
  destruct xs as [|x' xs]; [by apply split_nl_one_line|].
  rewrite join_cons; [|done]. unfold newline at 1.
  rewrite app_cons, app_empty_l, split_nl_app.
  rewrite IH; [|done]. by rewrite split_nl_one_line.
Qed.

Lemma join_concat (ls : list (list string)) :
  Forall (λ l, l ≠ []) ls →
  join newline (concat ls) = join newline (join newline <$> ls).
Proof.
  induction 1 as [|l ls Hl Hls IH]; [done|]. cbn [concat fmap list_fmap].
  destruct ls as [|l' ls]; [by rewrite app_nil_r|].
  rewrite join_app; [|done|].
  - rewrite IH. by rewrite join_cons.
  - inversion_clear Hls. cbn. by destruct l'.
Qed.

End StrFacts.

(** * Template substitution *)

Section TemplateFacts.
Context `{Host}.
Import Str Spec.

Lemma span_name_run (n r : string) :
  all_chars not_rbrace n = true →
  (r = "" ∨ ∃ r', r = String rbrace r') →
  span_name (n +:+ r) = (n, r).
Proof.
  intros Hn Hr. induction n as [|c n IH].
  - rewrite app_empty_l. destruct Hr as [->|[r' ->]]; [done|].
    cbn. by rewrite decide_True.
  - rewrite app_cons. cbn in Hn |- *.
    apply andb_true_iff in Hn as [Hc Hn]. apply bool_decide_eq_true in Hc.
    rewrite decide_False by done. by rewrite IH.
Qed.

Lemma span_name_shorter (s n r : string) :
  span_name s = (n, r) → String.length r ≤ String.length s.
Proof.
  revert n r. induction s as [|c s IH]; intros n r; cbn.
  - intros [= <- <-]. done.
  - case_decide.
    + intros [= <- <-]. done.
    + destruct (span_name s) as [n' r'] eqn:Hs. intros [= <- <-].
      specialize (IH _ _ eq_refl). lia.
Qed.

Lemma match_at_shorter (s p1 rest : string) :
  match_at s = Some (p1, rest) → String.length rest < String.length s.
Proof.
  unfold match_at. destruct s as [|c1 [|c2 t]]; [done..|].
  repeat case_decide; try done.
  destruct (span_name t) as [n r] eqn:Hs.
  apply span_name_shorter in Hs.
  destruct n as [|c n]; [done|]. destruct r as [|d1 [|d2 r]]; [done..|].
  repeat case_decide; try done. intros [= <- <-]. cbn in *. lia.
Qed.

Lemma match_at_placeholder (name post : string) :
  name ≠ "" → all_chars not_rbrace name = true →
  match_at ("{{" +:+ name +:+ "}}" +:+ post) = Some (name, post).
Proof.
  intros Hne Hname. change ("{{" +:+ name +:+ "}}" +:+ post)
    with (String lbrace (String lbrace (name +:+ String rbrace (String rbrace post)))).
  cbn [match_at]. rewrite !decide_True by done.
  rewrite span_name_run; [|done|eauto].
  destruct name as [|c n]; [done|]. by rewrite !decide_True.
Qed.

Lemma match_at_starts (s p1 rest : string) :
  match_at s = Some (p1, rest) → starts_with "{{" s = true.
Proof.
  unfold match_at. destruct s as [|c1 [|c2 t]]; [done..|].
  repeat case_decide; try done. subst. done.
Qed.

Lemma match_at_not_lbrace (c : ascii) (s : string) :
  c ≠ lbrace → match_at (String c s) = None.
Proof.
  intros Hc. cbn. destruct s; [done|]. by rewrite decide_False.
Qed.

(** More fuel than the length of the text changes nothing. *)
Lemma replace_go_fuel (args : gmap string value) (fuel fuel' : nat) (s : string) :
  String.length s < fuel → String.length s < fuel' →
  replace_go fuel args s = replace_go fuel' args s.
Proof.
  revert fuel' s. induction fuel as [|fuel IH]; intros fuel' s Hf Hf'; [lia|].
  destruct fuel' as [|fuel']; [lia|]. cbn.
  destruct (match_at s) as [[p1 rest]|] eqn:Hm.
  - apply match_at_shorter in Hm. by rewrite (IH fuel' rest) by lia.
  - destruct s as [|c s]; [done|]. cbn in Hf, Hf'. by rewrite (IH fuel' s) by lia.
Qed.

(** The equations of [_buildTemplate]: one step of the scan. *)
Lemma _buildTemplate_match (args : gmap string value) (s p1 rest : string) :
  match_at s = Some (p1, rest) →
  _buildTemplate s args =
    match args !! p1, Object_prototype p1 with
    | Some v, _ => (_stringifyValue v +:+ (_buildTemplate rest args).1,
                    (_buildTemplate rest args).2)
    | None, Some inherited => (inherited +:+ (_buildTemplate rest args).1,
                               (_buildTemplate rest args).2)
    | None, None => ("{{" +:+ p1 +:+ "}}" +:+ (_buildTemplate rest args).1,
                     warning p1 :: (_buildTemplate rest args).2)
    end.
Proof.
  intros Hm. unfold _buildTemplate at 1. cbn [replace_go]. rewrite Hm.
  apply match_at_shorter in Hm.
  rewrite (replace_go_fuel args _ (S (String.length rest))) by lia.
  fold (_buildTemplate rest args).
  by destruct (_buildTemplate rest args), (args !! p1), (Object_prototype p1).
Qed.

Lemma _buildTemplate_copy (args : gmap string value) (c : ascii) (s : string) :
  match_at (String c s) = None →
  _buildTemplate (String c s) args =
    (String c (_buildTemplate s args).1, (_buildTemplate s args).2).
Proof.
  intros Hm. unfold _buildTemplate at 1. cbn [replace_go]. rewrite Hm.
  rewrite (replace_go_fuel args _ (S (String.length s))) by (cbn; lia).
  fold (_buildTemplate s args). by destruct (_buildTemplate s args).
Qed.

Lemma _buildTemplate_prefix (args : gmap string value) (pre s : string) :
  all_chars not_lbrace pre = true →
  _buildTemplate (pre +:+ s) args =
    (pre +:+ (_buildTemplate s args).1, (_buildTemplate s args).2).
Proof.
  intros Hpre. induction pre as [|c pre IH].
  - rewrite !app_empty_l. by destruct (_buildTemplate s args).
  - cbn in Hpre. apply andb_true_iff in Hpre as [Hc Hpre].
    apply bool_decide_eq_true in Hc. rewrite !app_cons.
    rewrite _buildTemplate_copy by by apply match_at_not_lbrace.
    by rewrite IH.
Qed.

Lemma _buildTemplate_no_double_brace (args : gmap string value) (t : string) :
  includes "{{" t = false → _buildTemplate t args = (t, []).
Proof.
  induction t as [|c t IH]; [done|]. intros Ht.
  cbn [includes] in Ht. apply orb_false_iff in Ht as [Hs Ht].
  rewrite _buildTemplate_copy.
  - by rewrite IH.
  - destruct (match_at (String c t)) as [[p1 rest]|] eqn:Hm; [|done].
    apply match_at_starts in Hm. congruence.
Qed.






(** ** Templates written as text and placeholders *)

Lemma _buildTemplate_empty (args : gmap string value) :
  _buildTemplate "" args = ("", []).
Proof. done. Qed.



(** A placeholder that names no key of the mapping and a name that the
    mapping inherits is replaced by the text of the inherited value, and
    nothing is warned. *)
Lemma _buildTemplate_inherited (args : gmap string value)
    (name inherited rest : string) :
  well_formed (Placeholder name) = true →
  args !! name = None →
  Object_prototype name = Some inherited →
  _buildTemplate ("{{" +:+ name +:+ "}}" +:+ rest) args
  = (inherited +:+ (_buildTemplate rest args).1, (_buildTemplate rest args).2).
Proof.
  intros Hwf Hkey Hin. cbn [well_formed] in Hwf.
  apply andb_true_iff in Hwf as [Hne Hbrace]. apply bool_decide_eq_true in Hne.
  rewrite (_buildTemplate_match args _ name rest)
    by (by apply match_at_placeholder).
  by rewrite Hkey, Hin.
Qed.


End TemplateFacts.

(** * The Block Composer *)

Module MBFacts.
Import Str MB Spec.
Section Facts.
Context `{Host}.

(** Induction on a composer, with the property in hand for every composer
    nested in it. *)
Lemma MessageBuilder_nested_ind (P : MessageBuilder → Prop) :
  (∀ ci a ps, Forall (on_nested P) ps → P (Builder ci a ps)) →
  ∀ this, P this.
Proof.
  intros step. fix rec 1. intros [ci a ps]. apply step.
  induction ps as [|[v|c] ps IH]; constructor; try done. cbn. apply rec.
Qed.

(** ** Scalar parts *)

Lemma add_scalars_parts (vs : list scalar) ci a ps :
  add_scalars vs (Builder ci a ps) = Normal (Builder ci a (ps ++ (PValue <$> vs))).
Proof.
  unfold add_scalars. revert ps. induction vs as [|v vs IH]; intros ps; cbn.
  - by rewrite app_nil_r.
  - rewrite IH. by rewrite <- app_assoc.
Qed.

Lemma map_parts_scalars child int (a : gmap string value) (vs : list scalar) :
  map_parts child int false a (PValue <$> vs)
  = ((λ v, (_buildTemplate (scalar_text v) a).1) <$> vs,
     concat ((λ v, (_buildTemplate (scalar_text v) a).2) <$> vs),
     PValue <$> vs).
Proof.
  induction vs as [|v vs IH]; [done|]. cbn. rewrite IH.
  by destruct (_buildTemplate (scalar_text v) a).
Qed.

(** C6.  After [add] was called with the scalars [vs] in turn on a new
    composer, [build()] returns the substituted texts of [vs] in the order
    of the calls, joined with one line break. *)
Theorem build_of_scalars (global : string) (ci : option string)
    (a : gmap string value) (vs : list scalar) :
  ∃ this,
    add_scalars vs (Builder ci a []) = Normal this
    ∧ build global false None this
      = join newline ((λ v, (_buildTemplate (scalar_text v) a).1) <$> vs).
Proof.
  eexists. split; [apply add_scalars_parts|].
  unfold build, build_full. cbn. by rewrite map_parts_scalars.
Qed.

(** ** Lines and nesting depth *)

Lemma lines_unfold int d a ci a0 ps :
  lines int d a (Builder ci a0 ps)
  = concat (piece_lines (lines int) int d a <$> ps).
Proof. done. Qed.

Lemma piece_lines_nonempty child int d a p : piece_lines child int d a p ≠ [].
Proof.
  destruct p as [v|c]; cbn.
  - pose proof (split_nl_nonempty (_buildTemplate (scalar_text v) a).1).
    by destruct (split_nl _).
  - by destruct (child _ _ _).
Qed.

(** One level deeper is one more copy of the indentation before each line. *)
Lemma lines_deeper (int : string) (this : MessageBuilder) :
  ∀ d a, lines int (S d) a this = (λ line, int +:+ line) <$> lines int d a this.
Proof.
  induction this as [ci a0 ps IH] using MessageBuilder_nested_ind.
  intros d a. rewrite !lines_unfold.
  induction IH as [|p ps Hp _ IHps]; [done|]. cbn [fmap list_fmap concat].
  rewrite fmap_app, <- IHps. f_equal.
  destruct p as [v|c]; cbn.
  - rewrite <- list_fmap_compose. apply list_fmap_ext. intros _ line _. cbn.
    by rewrite app_assoc'.
  - cbn in Hp. rewrite Hp. by destruct (lines int (S d) _ c).
Qed.

Lemma one_line_rep (int : string) (d : nat) : one_line int → one_line (rep int d).
Proof. intros Hint. induction d; [done|]. by apply one_line_app. Qed.

Lemma lines_one_line (int : string) (this : MessageBuilder) :
  one_line int → ∀ d a, Forall one_line (lines int d a this).
Proof.
  intros Hint.
  induction this as [ci a0 ps IH] using MessageBuilder_nested_ind.
  intros d a. rewrite lines_unfold.
  induction IH as [|p ps Hp _ IHps]; [constructor|]. cbn [fmap list_fmap concat].
  apply Forall_app. split; [|done].
  destruct p as [v|c]; cbn.
  - apply Forall_fmap. eapply Forall_impl; [apply split_nl_lines|].
    intros line Hl. cbn. by apply one_line_app; [apply one_line_rep|].
  - cbn in Hp. specialize (Hp (S d) (merge a (args c))).
    destruct (lines int (S d) _ c); [|done].
    constructor; [|done]. by apply one_line_rep.
Qed.

Lemma indent_lines_join (int : string) (ls : list string) :
  ls ≠ [] → Forall one_line ls →
  indent_lines int (join newline ls) = join newline ((λ line, int +:+ line) <$> ls).
Proof. intros Hne Hls. unfold indent_lines. by rewrite split_nl_join. Qed.

(** What [map_parts] renders, part by part, when every nested composer
    renders its lines one level deep. *)
Lemma map_parts_lines global (int : string) (withIntent : bool)
    (a : gmap string value) (ps : list part) :
  one_line int →
  Forall (on_nested (λ c, ∀ a',
    (build_with global a' true (Some int) c).1.1
    = join newline (lines int 1 a' c))) ps →
  (map_parts (λ a' c, build_with global a' true (Some int) c) int withIntent a ps).1.1
  = join newline <$>
      (piece_lines (lines int) int (if withIntent then 1 else 0) a <$> ps).
Proof.
  intros Hint. induction 1 as [|p ps Hp Hps IH]; [done|].
  cbn [map_parts fmap list_fmap].
  destruct (map_parts _ int withIntent a ps) as [[strs logs] ps''].
  cbn in IH. subst strs.
  assert (∀ s l p', (let '(str, log, q) := (s, l, p') in
      ((if withIntent then indent_lines int str else str)
         :: (join newline <$> (piece_lines (lines int) int
              (if withIntent then 1 else 0) a <$> ps)),
       log ++ logs, q :: ps'')).1.1
    = (if withIntent then indent_lines int s else s)
        :: (join newline <$> (piece_lines (lines int) int
              (if withIntent then 1 else 0) a <$> ps))) as Hlet by done.
  destruct p as [v|c].
  - destruct (_buildTemplate (scalar_text v) a) as [s l] eqn:Hs.
    rewrite Hlet. f_equal. cbn. rewrite Hs. cbn.
    destruct withIntent; cbn.
    + unfold indent_lines. f_equal. apply list_fmap_ext. intros _ line _.
      by rewrite app_empty_r.
    + rewrite <- (join_split_nl s) at 1. f_equal.
      by rewrite list_fmap_id.
  - cbn in Hp. specialize (Hp (merge a (args c))).
    destruct (build_with global (merge a (args c)) true (Some int) c)
      as [[s l] c'] eqn:Hc.
    rewrite Hlet. f_equal. cbn in Hp. subst s. cbn.
    pose proof (lines_one_line int c Hint 1 (merge a (args c))) as Hone.
    destruct withIntent.
    + rewrite (lines_deeper int c 1).
      destruct (lines int 1 (merge a (args c)) c) as [|l1 ls] eqn:Hl.
      * cbn. unfold indent_lines. cbn. by rewrite !app_empty_r.
      * by rewrite indent_lines_join.
    + destruct (lines int 1 (merge a (args c)) c) as [|l1 ls] eqn:Hl; done.
Qed.

Lemma build_with_lines global (int : string) (this : MessageBuilder) :
  one_line int →
  ∀ a wi,
    (build_with global a wi (Some int) this).1.1
    = join newline (lines int (if wi then 1 else 0) a this).
Proof.
  intros Hint.
  induction this as [ci a0 ps IH] using MessageBuilder_nested_ind.
  intros a wi. cbn [build_with default from_option id].
  pose proof (map_parts_lines global int wi a ps Hint) as Hmap.
  destruct (map_parts _ int wi a ps) as [[strs logs] ps'].
  cbn in Hmap |- *. rewrite Hmap.
  - rewrite <- join_concat; [done|].
    apply Forall_fmap, Forall_true. intros p. apply piece_lines_nonempty.
  - eapply Forall_impl; [exact IH|]. intros [v|c]; cbn; [done|].
    intros Hc a'. apply (Hc a' true).
Qed.

Lemma build_with_override global a wi (ind : option string) (this : MessageBuilder) :
  build_with global a wi ind this
  = build_with global a wi
      (Some (default (default global (customIndent this)) ind)) this.
Proof. by destruct this. Qed.

(** C7, as it holds.  With an indentation [int] that holds no line break,
    the text of [build(withIntent, indent)] is the lines of the composer
    joined with line breaks, where a line that comes from a part at nesting
    depth [d] below the composer stands behind exactly [d] copies of [int]
    ([d + 1] when [withIntent] is set), and the own parts of a top-level
    [build()] stand behind none.  [int] is the indentation in effect: the
    override, else the composer's own, else the global one. *)
Theorem build_lines (global : string) (withIntent : bool)
    (indent : option string) (this : MessageBuilder) :
  let int := default (default global (customIndent this)) indent in
  one_line int →
  build global withIntent indent this
  = join newline (lines int (if withIntent then 1 else 0) (args this) this)
  ∧ ∀ d a c, lines int (S d) a c = (λ line, int +:+ line) <$> lines int d a c.
Proof.
  intros int Hint. split; [|intros; apply lines_deeper].
  unfold build, build_full. rewrite build_with_override.
  by apply build_with_lines.
Qed.

Lemma merge_empty (a : gmap string value) : merge ∅ a = a.
Proof. unfold merge. apply (right_id ∅ (∪)). Qed.

Lemma lines_nested (int : string) (n : nat) (a : gmap string value) (v : scalar) :
  one_line (_buildTemplate (scalar_text v) a).1 →
  ∀ d, lines int d (args (nested n (Builder None a [PValue v])))
         (nested n (Builder None a [PValue v]))
       = [rep int (n + d) +:+ (_buildTemplate (scalar_text v) a).1].
Proof.
  intros Hone. induction n as [|n IH]; intros d.
  - cbn [nested args]. rewrite lines_unfold.
    cbn [fmap list_fmap concat piece_lines app]. by rewrite split_nl_one_line.
  - cbn [nested args]. rewrite lines_unfold.
    cbn [fmap list_fmap concat piece_lines app].
    rewrite merge_empty, IH. by rewrite Nat.add_succ_r.
Qed.

(** A scalar at depth [n] stands behind [n] copies of the indentation. *)
Lemma build_nested (global : string) (n : nat) (a : gmap string value)
    (v : scalar) :
  one_line global →
  one_line (_buildTemplate (scalar_text v) a).1 →
  build global false None (nested n (Builder None a [PValue v]))
  = rep global n +:+ (_buildTemplate (scalar_text v) a).1.
Proof.
  intros Hint Hone. unfold build, build_full. rewrite build_with_override.
  assert (customIndent (nested n (Builder None a [PValue v])) = None) as ->
    by by destruct n.
  cbn [default from_option id]. rewrite build_with_lines by done.
  rewrite lines_nested by done. by rewrite Nat.add_0_r.
Qed.

(** ** Building twice *)

Lemma merge_again (a b : gmap string value) : merge a (merge a b) = merge a b.
Proof.
  unfold merge. rewrite <- (assoc (∪) b a a). by rewrite (idemp (∪) a).
Qed.

Lemma build_with_args global a wi ind this :
  args (build_with global a wi ind this).2 = a.
Proof.
  destruct this as [ci a0 ps]. cbn [build_with].
  by destruct (map_parts _ _ wi a ps) as [[??]?].
Qed.

Lemma map_parts_again
    (child : gmap string value → MessageBuilder → string * list string * MessageBuilder)
    (int : string) (wi : bool) (a : gmap string value) (ps : list part) :
  Forall (on_nested (λ c, ∀ a',
    args (child a' c).2 = a' ∧ child a' (child a' c).2 = child a' c)) ps →
  map_parts child int wi a (map_parts child int wi a ps).2
  = map_parts child int wi a ps.
Proof.
  induction 1 as [|p ps Hp Hps IH]; [done|]. cbn [map_parts].
  destruct (map_parts child int wi a ps) as [[strs logs] ps''] eqn:Hrest.
  cbn in IH. destruct p as [v|c].
  - destruct (_buildTemplate (scalar_text v) a) as [s l] eqn:Hs.
    cbn. by rewrite Hs, IH.
  - cbn in Hp. destruct (Hp (merge a (args c))) as [Hargs Hagain].
    destruct (child (merge a (args c)) c) as [[s l] c'] eqn:Hc.
    cbn in Hargs, Hagain |- *. rewrite Hargs, merge_again, Hagain.
    by rewrite IH.
Qed.

(** A second [build] of a composer that is held by value returns what the
    first returned, and leaves the composer as the first left it. *)
Lemma build_with_again global (this : MessageBuilder) :
  ∀ a wi ind,
    build_with global a wi ind (build_with global a wi ind this).2
    = build_with global a wi ind this.
Proof.
  induction this as [ci a0 ps IH] using MessageBuilder_nested_ind.
  intros a wi ind. cbn [build_with].
  pose proof (map_parts_again
    (λ a' c, build_with global a' true (Some (default (default global ci) ind)) c)
    (default (default global ci) ind) wi a ps) as Hmap.
  destruct (map_parts _ _ wi a ps) as [[strs logs] ps'] eqn:Hps.
  cbn [snd build_with]. cbn [snd] in Hmap. rewrite Hmap; [done|].
  eapply Forall_impl; [exact IH|]. intros [v|c]; cbn; [done|].
  intros Hc a'. split; [apply build_with_args|apply Hc].
Qed.

(** The composer after a build, built again, gives the same text. *)
Lemma build_after_build global wi ind (this : MessageBuilder) :
  build global wi ind (after_build global wi ind this) = build global wi ind this.
Proof.
  unfold build, after_build, build_full.
  rewrite build_with_args. by rewrite build_with_again.
Qed.

End Facts.
End MBFacts.

(** * The store and the composers held by value *)

Module HeapFacts.
Import Str MB Heap Spec MBFacts.
Section Refinement.
Context `{Host}.

(** [repr_parts] reads the store at the objects of the parts only, when
    [repr] does so for every nested composer. *)
Lemma repr_parts_frame (h h' : gmap loc instance) (ps : list part) :
  Forall (on_nested (λ c, ∀ l F,
    repr h l c F → (∀ l', l' ∈ F → h' !! l' = h !! l') → repr h' l c F)) ps →
  ∀ rps F, repr_parts h rps ps F →
    (∀ l', l' ∈ F → h' !! l' = h !! l') → repr_parts h' rps ps F.
Proof.
  induction 1 as [|p ps Hp Hps IH]; intros rps F Hr Hagree.
  - inversion Hr. constructor.
  - inversion Hr as [|v rps' ps' F' Hr'|c t rps' ps' Fc F' Hc Hr' Hdisj]; subst.
    + constructor. by apply IH.
    + constructor; [|apply IH|]; try done.
      * apply Hp; [done|]. intros l' Hl'. apply Hagree. set_solver.
      * intros l' Hl'. apply Hagree. set_solver.
Qed.

(** [repr] reads the store at the objects of the composer only. *)
Lemma repr_frame (h h' : gmap loc instance) (this : MessageBuilder) :
  ∀ l F, repr h l this F → (∀ l', l' ∈ F → h' !! l' = h !! l') → repr h' l this F.
Proof.
  induction this as [ci a ps IH] using MessageBuilder_nested_ind.
  intros l F Hr Hagree. inversion Hr as [l0 ci0 a0 rps ps0 F' Hl Hps Hnotin]; subst.
  apply repr_builder with (rps := rps); [| |done].
  - rewrite Hagree; [done|set_solver].
  - eapply repr_parts_frame; [exact IH|exact Hps|].
    intros l' Hl'. apply Hagree. set_solver.
Qed.

(** The loop over the parts on the store against the loop by value: the
    object [l] that is being built is none of the objects of its parts, so
    its mapping stays what it was while the parts are built; each nested
    build writes to the objects of its own composer only, so the parts
    still to come are held as before. *)
Lemma map_parts_refines global fuel (l : loc) (me : instance) int wi
    (ps : list part) :
  Forall (on_nested (refines global)) ps →
  ∀ rps F h,
    repr_parts h rps ps F → l ∉ F → h !! l = Some me → parts_depth ps ≤ fuel →
    ∃ h', Heap.map_parts (λ h c, Heap.build fuel global h c true (Some int))
            l int wi rps h
          = Some ((MB.map_parts (λ a' c, build_with global a' true (Some int) c)
                     int wi (h_args me) ps).1.1,
                  (MB.map_parts (λ a' c, build_with global a' true (Some int) c)
                     int wi (h_args me) ps).1.2, h')
       ∧ repr_parts h' rps
           (MB.map_parts (λ a' c, build_with global a' true (Some int) c)
              int wi (h_args me) ps).2 F
       ∧ ∀ l', l' ∉ F → h' !! l' = h !! l'.
Proof.
  induction 1 as [|p ps Hp Hps IH]; intros rps F h Hr Hl Hme Hfuel.
  - inversion Hr; subst. exists h. cbn. split; [done|split; [constructor|done]].
  - inversion Hr as [|v rps' ps' F' Hr'|c t rps' ps' Fc F' Hc Hr' Hdisj]; subst.
    + destruct (IH rps' F h Hr' Hl Hme Hfuel) as (h' & Hrun & Hrepr & Hframe).
      exists h'. cbn [Heap.map_parts MB.map_parts]. rewrite Hme. cbn [mbind option_bind].
      destruct (_buildTemplate (scalar_text v) (h_args me)) as [s lg].
      cbn [mbind option_bind]. rewrite Hrun. cbn [mbind option_bind].
      destruct (MB.map_parts _ int wi (h_args me) ps) as [[strs logs] ps''].
      cbn in *. split; [done|split; [by constructor|done]].
    + change (depth t `max` parts_depth ps ≤ fuel) in Hfuel.
      assert (depth t ≤ fuel ∧ parts_depth ps ≤ fuel) as [Hfuelc Hfuelps] by lia.
      clear Hfuel.
      inversion Hc as [l0 ci ac rpsc psc Fc' Hlc Hpsc Hnotin]; subst.
      set (a' := merge (h_args me) ac).
      set (pc := {| h_customIndent := ci; h_args := ac; h_parts := rpsc |}) in *.
      set (h0 := <[c := set_args a' pc]> h).
      assert (c ≠ l) as Hcl by set_solver.
      destruct (Hp a' h0 c ({[c]} ∪ Fc') true (Some int) fuel)
        as (h1 & Hrun1 & Hrepr1 & Hframe1).
      { apply repr_builder with (rps := rpsc); [| |done].
        - unfold h0. by rewrite lookup_insert_eq.
        - eapply repr_parts_frame; [|exact Hpsc|].
          + apply Forall_true. intros [v|c0]; cbn; [done|]. intros l0 F0.
            apply repr_frame.
          + intros l' Hl'. unfold h0. rewrite lookup_insert_ne; [done|set_solver]. }
      { done. }
      assert (∀ l', l' ∉ {[c]} ∪ Fc' → h1 !! l' = h !! l') as Hframe01.
      { intros l' Hl'. rewrite Hframe1 by done. unfold h0.
        rewrite lookup_insert_ne; [done|set_solver]. }
      destruct (IH rps' F' h1) as (h2 & Hrun2 & Hrepr2 & Hframe2).
      { eapply repr_parts_frame; [|exact Hr'|].
        - apply Forall_true. intros [v|c0]; cbn; [done|]. intros l0 F0.
          apply repr_frame.
        - intros l' Hl'. apply Hframe01. set_solver. }
      { set_solver. }
      { rewrite Hframe01; [done|set_solver]. }
      { done. }
      exists h2. cbn [Heap.map_parts MB.map_parts]. rewrite Hme. cbn [mbind option_bind].
      rewrite Hlc. cbn [mbind option_bind h_args].
      change (<[c:=set_args (merge (h_args me) (h_args pc)) pc]> h) with h0.
      rewrite Hrun1. cbn [mbind option_bind].
      change (merge (h_args me) (MB.args (Builder ci ac psc))) with a'.
      destruct (build_with global a' true (Some int) (Builder ci ac psc))
        as [[s lg] c'].
      cbn [fst snd] in *. rewrite Hrun2. cbn [mbind option_bind].
      destruct (MB.map_parts _ int wi (h_args me) ps) as [[strs logs] ps''].
      cbn [fst snd] in *. split; [done|split].
      * constructor; [|done..].
        eapply repr_frame; [exact Hrepr1|]. intros l' Hl'. apply Hframe2. set_solver.
      * intros l' Hl'. rewrite Hframe2 by set_solver. apply Hframe01. set_solver.
Qed.

Lemma depth_unfold ci a ps : depth (Builder ci a ps) = S (parts_depth ps).
Proof. done. Qed.

(** The build on the store refines the build by value, on every store that
    holds the composer as a tree. *)
Lemma build_refines global (this : MessageBuilder) : refines global this.
Proof.
  induction this as [ci a0 ps IH] using MessageBuilder_nested_ind.
  intros a h l F wi ind fuel Hr Hfuel. rewrite depth_unfold in Hfuel.
  destruct fuel as [|fuel]; [lia|].
  inversion Hr as [l0 ci0 a1 rps ps0 F' Hl Hps Hnotin]; subst.
  destruct (map_parts_refines global fuel l _ (default (default global ci) ind)
              wi ps IH rps F' h Hps Hnotin Hl) as (h' & Hrun & Hrepr & Hframe);
    [lia|].
  exists h'. cbn [Heap.build build_with]. rewrite Hl. cbn [mbind option_bind h_customIndent h_parts].
  rewrite Hrun. cbn [mbind option_bind h_args] in *.
  destruct (MB.map_parts _ _ wi a ps) as [[strs logs] ps'].
  cbn [fst snd] in *. split; [done|split].
  - apply repr_builder with (rps := rps); [|done..].
    rewrite Hframe; done.
  - intros l' Hl'. apply Hframe. set_solver.
Qed.

Lemma parts_depth_cons_builder c ps :
  parts_depth (PBuilder c :: ps) = depth c `max` parts_depth ps.
Proof. done. Qed.

Lemma map_parts_depth
    (child : gmap string value → MessageBuilder → string * list string * MessageBuilder)
    int wi a (ps : list part) :
  Forall (on_nested (λ c, ∀ a', depth (child a' c).2 = depth c)) ps →
  parts_depth (MB.map_parts child int wi a ps).2 = parts_depth ps.
Proof.
  induction 1 as [|p ps Hp Hps IH]; [done|]. cbn [MB.map_parts].
  destruct (MB.map_parts child int wi a ps) as [[strs logs] ps''].
  cbn [snd] in IH. destruct p as [v|c].
  - destruct (_buildTemplate (scalar_text v) a). cbn. done.
  - cbn in Hp. specialize (Hp (merge a (MB.args c))).
    destruct (child (merge a (MB.args c)) c) as [[s lg] c'].
    cbn [snd] in *. rewrite !parts_depth_cons_builder. by rewrite Hp, IH.
Qed.

Lemma build_with_depth global (this : MessageBuilder) :
  ∀ a wi ind, depth (build_with global a wi ind this).2 = depth this.
Proof.
  induction this as [ci a0 ps IH] using MessageBuilder_nested_ind.
  intros a wi ind. cbn [build_with].
  pose proof (map_parts_depth
    (λ a' c, build_with global a' true (Some (default (default global ci) ind)) c)
    (default (default global ci) ind) wi a ps) as Hmap.
  destruct (MB.map_parts _ _ wi a ps) as [[strs logs] ps'].
  cbn [snd] in *. rewrite !depth_unfold, Hmap; [done|].
  eapply Forall_impl; [exact IH|]. intros [v|c]; cbn; [done|]. auto.
Qed.

Lemma with_args_same (this : MessageBuilder) : with_args (MB.args this) this = this.
Proof. by destruct this. Qed.

(** On a store that holds the composer as a tree, [build] returns, and its
    text is the text of the build by value. *)
Lemma build_on_store (fuel : nat) (global : string) (h : gmap loc instance)
    (this : loc) (composer : MessageBuilder) (F : gset loc)
    (withIntent : bool) (indent : option string) :
  repr h this composer F →
  depth composer ≤ fuel →
  ∃ log h',
    Heap.build fuel global h this withIntent indent
    = Some (MB.build global withIntent indent composer, log, h').
Proof.
  intros Hr Hfuel.
  destruct (build_refines global composer (MB.args composer) h this F
              withIntent indent fuel) as (h' & Hrun & _); [|done|].
  - by rewrite with_args_same.
  - eauto.
Qed.

(** The lines of a composer held in a store as a tree: what [build_lines]
    says of the build by value holds of the build on the store. *)
Lemma build_lines_on_store (fuel : nat) (global : string)
    (h : gmap loc instance) (this : loc) (composer : MessageBuilder)
    (F : gset loc) (withIntent : bool) (indent : option string) :
  repr h this composer F →
  depth composer ≤ fuel →
  one_line (default (default global (customIndent composer)) indent) →
  ∃ log h',
    Heap.build fuel global h this withIntent indent
    = Some (join newline
              (lines (default (default global (customIndent composer)) indent)
                 (if withIntent then 1 else 0) (MB.args composer) composer),
            log, h').
Proof.
  intros Hr Hfuel Hint.
  destruct (build_on_store fuel global h this composer F withIntent indent Hr Hfuel)
    as (log & h' & Hrun).
  exists log, h'. rewrite Hrun. do 3 f_equal.
  unfold MB.build, build_full. rewrite build_with_override.
  by apply build_with_lines.
Qed.

(** C8, as it holds.  On a store in which the composer at [this] and the
    composers below it form a tree (no composer object is attached at two
    places), and with nothing written to the store between the calls,
    [build] called twice in a row returns (with fuel for the depth of the
    composer, it does return) the same text twice. *)
Theorem build_twice_same_text (fuel : nat) (global : string)
    (h : gmap loc instance) (this : loc) (composer : MessageBuilder)
    (F : gset loc) (withIntent : bool) (indent : option string) :
  repr h this composer F →
  depth composer ≤ fuel →
  ∃ text, build_twice fuel global h this withIntent indent = Some (text, text).
Proof.
  intros Hr Hfuel. destruct composer as [ci a ps].
  set (t := Builder ci a ps) in *.
  destruct (build_refines global t a h this F withIntent indent fuel Hr Hfuel)
    as (h1 & Hrun1 & Hrepr1 & _).
  set (r := build_with global a withIntent indent t) in *.
  assert (with_args a r.2 = r.2) as Hsame.
  { pose proof (build_with_args global a withIntent indent t) as Ha.
    fold r in Ha. destruct r.2 as [ci' a' ps']. cbn in *. by subst. }
  destruct (build_refines global r.2 a h1 this F withIntent indent fuel)
    as (h2 & Hrun2 & _).
  { by rewrite Hsame. }
  { unfold r. by rewrite build_with_depth. }
  unfold r in Hrun2 at 1 2. rewrite build_with_again in Hrun2. fold r in Hrun2.
  exists r.1.1. unfold build_twice. rewrite Hrun1. cbn [mbind option_bind].
  rewrite Hrun2. done.
Qed.

End Refinement.
End HeapFacts.

(** * The Turn Sequencer *)

Module PBFacts.
Import Str MB PB Spec.
Section Facts.
Context `{Host}.

Lemma partition_step_parts (c : ChatMessage) contextParts msgs :
  partition_step (contextParts, msgs) c
  = (contextParts ++ context_part c, msgs ++ thread_part c).
Proof.
  unfold partition_step, context_part, thread_part. case_decide.
  - by rewrite app_nil_r.
  - destruct (truthy (cm_placeholder c)); [done|]. by rewrite app_nil_r.
Qed.

Lemma foldl_partition_step (cs : list ChatMessage) contextParts msgs :
  foldl partition_step (contextParts, msgs) cs
  = (contextParts ++ (cs ≫= context_part), msgs ++ (cs ≫= thread_part)).
Proof.
  revert contextParts msgs. induction cs as [|c cs IH]; intros contextParts msgs.
  - cbn. by rewrite !app_nil_r.
  - cbn [foldl]. rewrite partition_step_parts, IH, !bind_cons.
    by rewrite <- !app_assoc.
Qed.

Lemma context_part_empty (c : ChatMessage) :
  context_part c = [] ↔ cm_role c ≠ system ∧ truthy (cm_placeholder c) = false.
Proof.
  unfold context_part. case_decide; [naive_solver|].
  destruct (truthy (cm_placeholder c)); naive_solver.
Qed.

(** C1, as it holds.  The context of [buildForAssistant] is made, in the
    order the turns were appended, of the text of every [system] turn that
    passes the filter and of the placeholder of every other turn that
    passes it and has a non-empty one, joined with line breaks; it is
    [undefined] exactly when there is no such text and no such placeholder,
    that is when no turn that passes is a [system] turn or carries a
    non-empty placeholder. *)
Theorem buildForAssistant_context (global : string)
    (filter : option MessageFilter) (this : PromptBuilder) :
  let kept := resolved global filter this in
  context (buildForAssistant global filter this)
  = match kept ≫= context_part with
    | [] => None
    | parts => Some (join newline parts)
    end
  ∧ (context (buildForAssistant global filter this) = None
     ↔ Forall (λ c, cm_role c ≠ system ∧ truthy (cm_placeholder c) = false) kept).
Proof.
  intros kept. unfold buildForAssistant. fold kept.
  rewrite foldl_partition_step. cbn [app context].
  assert (kept ≫= context_part = []
          ↔ Forall (λ c, cm_role c ≠ system ∧ truthy (cm_placeholder c) = false) kept)
    as Hempty.
  { induction kept as [|c cs IH]; [done|]. rewrite bind_cons, Forall_cons.
    rewrite <- IH, <- context_part_empty. split.
    - by intros [-> ->]%app_eq_nil.
    - by intros [-> ->]. }
  rewrite <- Hempty. destruct (kept ≫= context_part) as [|part parts].
  - by rewrite decide_False by (cbn; lia).
  - rewrite decide_True by (cbn; lia). done.
Qed.

(** ** Placeholders of [system] turns *)

Lemma resolve_with_placeholder global a (p : option string) (m : message) :
  role m = system →
  let c := (resolve global a m).1.1 in
  let c' := (resolve global a (with_placeholder p m)).1.1 in
  context_part c' = context_part c
  ∧ thread_part c' = thread_part c
  ∧ without_placeholder c' = without_placeholder c.
Proof.
  intros Hrole. unfold resolve. cbn [content with_placeholder role placeholder].
  destruct (content m) as [s|b].
  - unfold context_part, thread_part, without_placeholder. cbn. by rewrite !decide_True.
  - destruct (build_with global _ false None b) as [[text log] b'].
    unfold context_part, thread_part, without_placeholder. cbn. by rewrite !decide_True.
Qed.

Lemma resolved_replace_system_placeholders global
    (filter : option MessageFilter) (g : message → option string)
    (this : PromptBuilder) :
  (∀ m p, role m = system →
     _filter filter (with_placeholder p m) = _filter filter m) →
  let kept := resolved global filter this in
  let kept' := resolved global filter (replace_system_placeholders g this) in
  kept' ≫= context_part = kept ≫= context_part
  ∧ kept' ≫= thread_part = kept ≫= thread_part
  ∧ without_placeholder <$> kept' = without_placeholder <$> kept.
Proof.
  intros Hfilter. unfold resolved, replace_system_placeholders.
  cbn [PB.args _messages].
  induction (_messages this) as [|m ms (IH1 & IH2 & IH3)]; [done|].
  cbn [fmap list_fmap List.filter].
  assert (_filter filter (if decide (role m = system)
                          then with_placeholder (g m) m else m)
          = _filter filter m) as ->.
  { case_decide; [by apply Hfilter|done]. }
  destruct (_filter filter m); [|done].
  cbn [fmap list_fmap]. rewrite !bind_cons.
  cbn [fmap list_fmap] in IH1, IH2, IH3. rewrite IH1, IH2, IH3.
  case_decide as Hrole; [|done].
  destruct (resolve_with_placeholder global (PB.args this) (g m) m Hrole)
    as (-> & -> & ->).
  done.
Qed.

(** With a filter that does not decide on the placeholder of a [system]
    turn, the placeholders of the [system] turns can be replaced by any
    others. *)
Lemma system_placeholder_replaced (global : string)
    (filter : option MessageFilter) (g : message → option string)
    (this : PromptBuilder) :
  (∀ m p, role m = system →
     _filter filter (with_placeholder p m) = _filter filter m) →
  buildForAssistant global filter (replace_system_placeholders g this)
    = buildForAssistant global filter this
  ∧ PB.build global filter (replace_system_placeholders g this)
    = PB.build global filter this.
Proof.
  intros Hfilter.
  destruct (resolved_replace_system_placeholders global filter g this Hfilter)
    as (Hctx & Hthr & Hbuild).
  split.
  - unfold buildForAssistant. rewrite !foldl_partition_step. cbn [app].
    by rewrite Hctx, Hthr.
  - exact Hbuild.
Qed.

Lemma filter_all {A : Type} (l : list A) : List.filter (λ _, true) l = l.
Proof. induction l as [|x l IH]; [done|]. cbn. by rewrite IH. Qed.

Lemma resolved_kept_turns global (filter : option MessageFilter)
    (this : PromptBuilder) :
  resolved global None (kept_turns filter this) = resolved global filter this.
Proof. unfold resolved, kept_turns. cbn. by rewrite filter_all. Qed.

Lemma resolve_stored_text global a (m : message) :
  (resolve global a m).1.1
  = {| cm_role := role m; cm_content := stored_text global a m;
       cm_placeholder := placeholder m |}.
Proof.
  unfold resolve, stored_text, content_text, MB.build, build_full.
  destruct (content m) as [s|b]; [done|]. cbn [MB.args].
  replace (build_with global (merge a (MB.args b)) false None
             (Builder (customIndent b) (merge a (MB.args b)) (_parts b)))
    with (build_with global (merge a (MB.args b)) false None b)
    by by destruct b.
  by destruct (build_with global _ false None b) as [[text log] b'].
Qed.

Lemma context_part_of_turn global a (m : message) :
  context_part (resolve global a m).1.1 = context_of_turn global a m.
Proof.
  rewrite resolve_stored_text. unfold context_part, context_of_turn, truthy.
  cbn [cm_role cm_content cm_placeholder].
  destruct (role m); try done;
    (rewrite decide_False by done; destruct (placeholder m) as [p|]; [|done];
     case_decide; [by rewrite bool_decide_eq_false_2 by naive_solver|
                   by rewrite bool_decide_eq_true_2]).
Qed.

Lemma thread_part_of_turn global a (m : message) :
  thread_part (resolve global a m).1.1 = message_of_turn global a m.
Proof.
  rewrite resolve_stored_text. unfold thread_part, message_of_turn.
  cbn [cm_role cm_content]. by destruct (role m).
Qed.

(** C10.  The placeholder of a [system] turn reaches no output.  For every
    filter, the context that [buildForAssistant] returns is made, in the
    order of the turns that pass the filter, of the resolved content of
    every [system] turn, whatever placeholder the turn carries, and of the
    non-empty placeholders of the other turns, joined with line breaks
    ([undefined] when there is none); its messages are the other turns with
    their resolved content.  And what [buildForAssistant] and [build]
    return is what they return after the placeholder of every [system]
    turn that passes was replaced by any other ([g] chooses it). *)
Theorem system_placeholder_ignored (global : string)
    (filter : option MessageFilter) (g : message → option string)
    (this : PromptBuilder) :
  context (buildForAssistant global filter this)
    = match List.filter (_filter filter) (_messages this)
              ≫= context_of_turn global (PB.args this) with
      | [] => None
      | parts => Some (join newline parts)
      end
  ∧ messages (buildForAssistant global filter this)
    = List.filter (_filter filter) (_messages this)
        ≫= message_of_turn global (PB.args this)
  ∧ buildForAssistant global None
      (replace_system_placeholders g (kept_turns filter this))
    = buildForAssistant global filter this
  ∧ PB.build global None
      (replace_system_placeholders g (kept_turns filter this))
    = PB.build global filter this.
Proof.
  assert (∀ ms : list message,
            ((λ m, (resolve global (PB.args this) m).1.1) <$> ms) ≫= context_part
            = ms ≫= context_of_turn global (PB.args this)
            ∧ ((λ m, (resolve global (PB.args this) m).1.1) <$> ms) ≫= thread_part
              = ms ≫= message_of_turn global (PB.args this)) as Hturns.
  { induction ms as [|m ms [IHc IHt]]; [done|].
    cbn [fmap list_fmap]. rewrite !bind_cons.
    by rewrite IHc, IHt, context_part_of_turn, thread_part_of_turn. }
  destruct (Hturns (List.filter (_filter filter) (_messages this)))
    as [Hcontext Hmessages].
  split; [|split].
  - unfold buildForAssistant, resolved. rewrite foldl_partition_step.
    cbn [app context]. rewrite Hcontext.
    destruct (_ ≫= context_of_turn global (PB.args this)) as [|part parts].
    + by rewrite decide_False by (cbn; lia).
    + by rewrite decide_True by (cbn; lia).
  - unfold buildForAssistant, resolved. rewrite foldl_partition_step.
    cbn [app messages]. exact Hmessages.
  - destruct (system_placeholder_replaced global None g (kept_turns filter this))
      as [Hassistant Hbuild]; [done|].
    rewrite Hassistant, Hbuild. unfold buildForAssistant, PB.build.
    by rewrite resolved_kept_turns.
Qed.

(** ** Asynchronous callbacks *)

Lemma isAsyncFunction_async (fn : callback) :
  is_async fn = true → isAsyncFunction fn = true.
Proof. intros Hfn. unfold isAsyncFunction. rewrite Hfn. done. Qed.

(** C5.  With a callback that was declared [async], each of [userMessage],
    [systemMessage] and [assistantMessage] throws, the message names the
    [Async] method of its role, and the sequencer is as it was before the
    call. *)
Theorem message_methods_reject_async (fn : callback) (o : options)
    (this : PromptBuilder) :
  is_async fn = true →
  userMessage (IFunction fn) o this
    = Thrown this
        "Async function cannot be used with non-async message method. Use userMessageAsync instead."
  ∧ systemMessage (IFunction fn) o this
    = Thrown this
        "Async function cannot be used with non-async message method. Use systemMessageAsync instead."
  ∧ assistantMessage (IFunction fn) o this
    = Thrown this
        "Async function cannot be used with non-async message method. Use assistantMessageAsync instead.".
Proof.
  intros Hfn%isAsyncFunction_async.
  unfold userMessage, systemMessage, assistantMessage, _push.
  rewrite Hfn. done.
Qed.

End Facts.
End PBFacts.

(** * More on the Block Composer *)

Module MBMore.
Import Str MB Spec MBFacts.
Section Facts.
Context `{Host}.

(** ** [withIntent] *)

Lemma split_nl_join_all (xs : list string) :
  xs ≠ [] → split_nl (join newline xs) = concat (split_nl <$> xs).
Proof.
  induction xs as [|x xs IH]; [done|]. intros _.
  destruct xs as [|x' xs]; [cbn; by rewrite app_nil_r|].
  rewrite join_cons by done. unfold newline at 1.
  rewrite app_cons, app_empty_l, split_nl_app. by rewrite IH.
Qed.

Lemma fmap_concat_lists {A B : Type} (f : A → B) (ls : list (list A)) :
  f <$> concat ls = concat ((λ l : list A, f <$> l) <$> ls).
Proof.
  induction ls as [|l ls IH]; [done|]. cbn. by rewrite fmap_app, IH.
Qed.

Lemma indent_lines_join_all (int : string) (xs : list string) :
  xs ≠ [] →
  indent_lines int (join newline xs) = join newline (indent_lines int <$> xs).
Proof.
  intros Hne. unfold indent_lines at 1. rewrite split_nl_join_all by done.
  rewrite fmap_concat_lists.
  rewrite join_concat.
  - rewrite <- !list_fmap_compose. done.
  - apply Forall_fmap, Forall_fmap, Forall_true. intros x. cbn.
    pose proof (split_nl_nonempty x). by destruct (split_nl x).
Qed.

Lemma map_parts_indented child int (a : gmap string value) (ps : list part) :
  map_parts child int true a ps
  = (indent_lines int <$> (map_parts child int false a ps).1.1,
     (map_parts child int false a ps).1.2,
     (map_parts child int false a ps).2).
Proof.
  induction ps as [|p ps IH]; [done|]. cbn [map_parts]. rewrite IH.
  destruct (map_parts child int false a ps) as [[strs logs] ps''].
  destruct p as [v|c].
  - by destruct (_buildTemplate (scalar_text v) a).
  - by destruct (child (merge a (args c)) c) as [[s l] c'].
Qed.

Lemma map_parts_length child int wi (a : gmap string value) (ps : list part) :
  length (map_parts child int wi a ps).1.1 = length ps.
Proof.
  induction ps as [|p ps IH]; [done|]. cbn [map_parts].
  destruct (map_parts child int wi a ps) as [[strs logs] ps''].
  cbn in IH. destruct p as [v|c].
  - destruct (_buildTemplate (scalar_text v) a). cbn. by rewrite IH.
  - destruct (child (merge a (args c)) c) as [[s l] c']. cbn. by rewrite IH.
Qed.

(** X1.  [build(true, indent)] of a composer that has parts is
    [build(false, indent)] with the indentation put before every line of it,
    whatever the indentation is; of a composer without parts it is the empty
    text, with no indentation at all. *)
Theorem build_with_intent (global : string) (indent : option string)
    (this : MessageBuilder) :
  build global true indent this
  = match _parts this with
    | [] => ""
    | _ => indent_lines (effective_indent global indent this)
             (build global false indent this)
    end.
Proof.
  destruct this as [ci a ps]. unfold build, build_full, effective_indent.
  cbn [build_with _parts customIndent args].
  rewrite map_parts_indented.
  pose proof (map_parts_length
    (λ a' c, build_with global a' true (Some (default (default global ci) indent)) c)
    (default (default global ci) indent) false a ps) as Hlen.
  destruct (map_parts _ _ false a ps) as [[strs logs] ps']. cbn [fst snd] in *.
  destruct ps as [|p ps]; [by destruct strs|].
  rewrite indent_lines_join_all; [done|]. by destruct strs.
Qed.

(** ** The indentation of a nested composer *)

Lemma map_indents_unfold g ci (a : gmap string value) ps :
  map_indents g (Builder ci a ps) = Builder (g ci) a (reindent_part g <$> ps).
Proof. done. Qed.

Lemma args_map_indents g (this : MessageBuilder) :
  args (map_indents g this) = args this.
Proof. by destruct this. Qed.

Lemma map_parts_reindent g
    (child child' : gmap string value → MessageBuilder → string * list string * MessageBuilder)
    int wi (a : gmap string value) (ps : list part) :
  Forall (on_nested (λ c, ∀ a',
    (child a' (map_indents g c)).1 = (child' a' c).1)) ps →
  (map_parts child int wi a (reindent_part g <$> ps)).1
  = (map_parts child' int wi a ps).1.
Proof.
  induction 1 as [|p ps Hp Hps IH]; [done|]. cbn [fmap list_fmap map_parts].
  destruct (map_parts child int wi a (reindent_part g <$> ps)) as [[strs logs] qs].
  destruct (map_parts child' int wi a ps) as [[strs' logs'] qs'].
  cbn [fst] in IH. injection IH as -> ->.
  destruct p as [v|c]; cbn [reindent_part].
  - by destruct (_buildTemplate (scalar_text v) a).
  - cbn in Hp. specialize (Hp (merge a (args c))). rewrite args_map_indents.
    destruct (child (merge a (args c)) (map_indents g c)) as [[s l] c1].
    destruct (child' (merge a (args c)) c) as [[s' l'] c2].
    cbn [fst] in Hp. by injection Hp as -> ->.
Qed.

(** With an override, neither the global indentation nor the indentation of
    any composer is read. *)
Lemma build_with_map_indents g global global' int (this : MessageBuilder) :
  ∀ a wi,
    (build_with global a wi (Some int) (map_indents g this)).1
    = (build_with global' a wi (Some int) this).1.
Proof.
  induction this as [ci a0 ps IH] using MessageBuilder_nested_ind.
  intros a wi. rewrite map_indents_unfold. cbn [build_with default from_option id].
  pose proof (map_parts_reindent g
    (λ a' c, build_with global a' true (Some int) c)
    (λ a' c, build_with global' a' true (Some int) c) int wi a ps) as Hmap.
  destruct (map_parts _ int wi a (reindent_part g <$> ps)) as [[strs logs] qs].
  destruct (map_parts _ int wi a ps) as [[strs' logs'] qs'].
  cbn [fst] in *. assert ((strs, logs) = (strs', logs')) as Heq.
  { apply Hmap. eapply Forall_impl; [exact IH|].
    intros [v|c]; cbn; [done|]. auto. }
  by injection Heq as -> ->.
Qed.

(** X2.  The indentation of a nested composer is never used: whatever the
    [customIndent] of the composers nested in a composer are, its [build]
    gives the same text, indented with the indentation of the composer that
    [build] is called on.  With an [indent] argument, the text depends on
    no [customIndent] and not on the global indentation; and a composer
    with a [customIndent] of its own does not read the global one. *)
Theorem nested_indent_unused (g : option string → option string)
    (global global' : string) (withIntent : bool) (indent : option string)
    (int : string) (this : MessageBuilder) :
  build global withIntent indent (map_nested_indents g this)
    = build global withIntent indent this
  ∧ build global withIntent (Some int) (map_indents g this)
    = build global' withIntent (Some int) this
  ∧ build global withIntent None (Builder (Some int) (args this) (_parts this))
    = build global' withIntent None (Builder (Some int) (args this) (_parts this)).
Proof.
  assert (∀ G G' t, build G withIntent (Some int) (map_indents g t)
                    = build G' withIntent (Some int) t) as Hover.
  { intros G G' t. unfold build, build_full.
    rewrite args_map_indents. by rewrite (build_with_map_indents g G G'). }
  split; [|split; [apply Hover|]].
  - destruct this as [ci a ps]. unfold build, build_full.
    cbn [map_nested_indents args build_with].
    pose proof (map_parts_reindent g
      (λ a' c, build_with global a' true
                 (Some (default (default global ci) indent)) c)
      (λ a' c, build_with global a' true
                 (Some (default (default global ci) indent)) c)
      (default (default global ci) indent) withIntent a ps) as Hmap.
    destruct (map_parts _ _ withIntent a (reindent_part g <$> ps)) as [[strs logs] qs].
    destruct (map_parts _ _ withIntent a ps) as [[strs' logs'] qs'].
    cbn [fst] in *. assert ((strs, logs) = (strs', logs')) as Heq.
    { apply Hmap. apply Forall_true. intros [v|c]; cbn; [done|]. intros a'.
      apply build_with_map_indents. }
    by injection Heq as -> ->.
  - unfold build, build_full. rewrite !(build_with_override _ _ _ None).
    cbn [customIndent default from_option id args].
    rewrite <- (build_with_map_indents id global global'). f_equal. f_equal.
    clear. generalize (_parts this). intros ps.
    assert (∀ t : MessageBuilder, map_indents id t = t) as Hid.
    { induction t as [ci a ps' IH] using MessageBuilder_nested_ind.
      rewrite map_indents_unfold. cbn. f_equal.
      induction IH as [|p ps'' Hp _ IHps]; [done|]. cbn. rewrite IHps. f_equal.
      destruct p; cbn in *; by rewrite ?Hp. }
    by rewrite Hid.
Qed.

(** ** Inherited mappings *)

Lemma scope_lookup (k : string) (ms : list (gmap string value)) :
  ∀ b, foldl merge b ms !! k
       = match nearest k ms with Some v => Some v | None => b !! k end.
Proof.
  induction ms as [|a ms IH]; intros b; [done|]. cbn [foldl nearest].
  rewrite IH. destruct (nearest k ms); [done|]. unfold merge.
  rewrite lookup_union. by destruct (a !! k), (b !! k).
Qed.

Lemma args_nested_in scopes ci a ps :
  args (nested_in scopes (Builder ci a ps)) = default a (head (scopes.*2 ++ [a])).
Proof. by destruct scopes as [|[ci' a'] scopes]. Qed.

Lemma build_with_nested_in global int scopes ci a0 (v : scalar) :
  ∀ (b : gmap string value) (wi : bool),
    (build_with global b wi (Some int)
       (nested_in scopes (Builder ci a0 [PValue v]))).1.1
    = Nat.iter (length scopes + (if wi then 1 else 0)) (indent_lines int)
        (_buildTemplate (scalar_text v)
           (foldl merge b (tail (scopes.*2 ++ [a0])))).1.
Proof.
  induction scopes as [|[ci' a'] scopes IH]; intros b wi.
  - cbn [nested_in build_with map_parts default from_option id].
    destruct (_buildTemplate (scalar_text v) b) as [s l] eqn:Hs. cbn.
    rewrite Hs. by destruct wi.
  - cbn [nested_in build_with map_parts default from_option id].
    specialize (IH (merge b (args (nested_in scopes (Builder ci a0 [PValue v]))))
                  true).
    destruct (build_with global _ true (Some int)
                (nested_in scopes (Builder ci a0 [PValue v]))) as [[s l] c'].
    cbn [fst] in IH. cbn [fst join]. rewrite IH. rewrite args_nested_in.
    cbn [fmap list_fmap snd app tail length].
    assert (foldl merge
              (merge b (default a0 (head (scopes.*2 ++ [a0]))))
              (tail (scopes.*2 ++ [a0]))
            = foldl merge b (scopes.*2 ++ [a0])) as ->.
    { by destruct scopes as [|[ci2 a2] scopes]. }
    destruct wi.
    + by rewrite !Nat.add_1_r.
    + by rewrite Nat.add_1_r, Nat.add_0_r.
Qed.

(** X3.  A placeholder of a scalar is resolved through the composers around
    it: the text of a scalar that stands below any number of nested
    composers is substituted with the mappings of all the composers on the
    path, where a key has the value of the innermost composer that holds it;
    the text is indented once for every composer around (and once more with
    [withIntent]). *)
Theorem args_inherited (global : string) (withIntent : bool)
    (indent : option string) (scopes : list (option string * gmap string value))
    (ci : option string) (a : gmap string value) (v : scalar) :
  build global withIntent indent (nested_in scopes (Builder ci a [PValue v]))
  = Nat.iter (length scopes + (if withIntent then 1 else 0))
      (indent_lines
         (effective_indent global indent
            (nested_in scopes (Builder ci a [PValue v]))))
      (_buildTemplate (scalar_text v) (scope (scopes.*2 ++ [a]))).1
  ∧ ∀ k, scope (scopes.*2 ++ [a]) !! k = nearest k (scopes.*2 ++ [a]).
Proof.
  split.
  - unfold build, build_full, effective_indent. rewrite build_with_override.
    rewrite build_with_nested_in. do 3 f_equal. rewrite args_nested_in.
    unfold scope.
    destruct scopes as [|[ci2 a2] scopes];
      cbn [fmap list_fmap snd app head tail default from_option id foldl];
      by rewrite merge_empty.
  - intros k. unfold scope. rewrite scope_lookup. rewrite lookup_empty.
    by destruct (nearest k _).
Qed.

(** ** What a build leaves behind *)

Lemma inherit_unfold a ci (a0 : gmap string value) ps :
  inherit a (Builder ci a0 ps) = Builder ci a (inherit_part a <$> ps).
Proof. done. Qed.

Lemma map_parts_inherit
    (child : gmap string value → MessageBuilder → string * list string * MessageBuilder)
    int wi (a : gmap string value) (ps : list part) :
  Forall (on_nested (λ c, ∀ a', (child a' c).2 = inherit a' c)) ps →
  (map_parts child int wi a ps).2 = inherit_part a <$> ps.
Proof.
  induction 1 as [|p ps Hp Hps IH]; [done|]. cbn [fmap list_fmap map_parts].
  destruct (map_parts child int wi a ps) as [[strs logs] qs].
  cbn [snd] in IH. subst qs. destruct p as [v|c]; cbn [inherit_part].
  - by destruct (_buildTemplate (scalar_text v) a).
  - cbn in Hp. specialize (Hp (merge a (args c))).
    destruct (child (merge a (args c)) c) as [[s l] c1]. cbn in Hp. by subst c1.
Qed.

Lemma build_with_inherit global (this : MessageBuilder) :
  ∀ a wi ind, (build_with global a wi ind this).2 = inherit a this.
Proof.
  induction this as [ci a0 ps IH] using MessageBuilder_nested_ind.
  intros a wi ind. rewrite inherit_unfold. cbn [build_with].
  pose proof (map_parts_inherit
    (λ a' c, build_with global a' true (Some (default (default global ci) ind)) c)
    (default (default global ci) ind) wi a ps) as Hmap.
  destruct (map_parts _ _ wi a ps) as [[strs logs] qs].
  cbn [snd] in *. rewrite Hmap; [done|].
  eapply Forall_impl; [exact IH|]. intros [v|c]; cbn; [done|]. auto.
Qed.

(** X4.  What [build] does to the composer: whatever its arguments and the
    global indentation are, it leaves every [customIndent] and every part
    as they were, and every nested composer with the mappings of the
    composers around it merged under its own.  A composer that was built
    is changed by no later build and gives the same text and the same
    warnings again. *)
Theorem build_leaves_inherited (global global' : string)
    (withIntent withIntent' : bool) (indent indent' : option string)
    (this : MessageBuilder) :
  after_build global withIntent indent this = inherit (args this) this
  ∧ after_build global' withIntent' indent'
      (after_build global withIntent indent this)
    = after_build global withIntent indent this
  ∧ (build_full global' withIntent' indent'
       (after_build global withIntent indent this)).1
    = (build_full global' withIntent' indent' this).1.
Proof.
  unfold after_build, build_full. rewrite !build_with_args.
  split; [apply build_with_inherit|].
  rewrite (build_with_inherit global this (args this) withIntent indent).
  rewrite <- (build_with_inherit global' this (args this) withIntent' indent').
  by rewrite build_with_again.
Qed.

(** ** One more part *)

Lemma map_parts_app child int wi (a : gmap string value) (ps qs : list part) :
  (map_parts child int wi a (ps ++ qs)).1.1
  = (map_parts child int wi a ps).1.1 ++ (map_parts child int wi a qs).1.1.
Proof.
  induction ps as [|p ps IH]; [done|]. cbn [app map_parts].
  destruct (map_parts child int wi a (ps ++ qs)) as [[strs logs] rs].
  destruct (map_parts child int wi a ps) as [[strs1 logs1] rs1].
  cbn [fst] in IH. subst strs.
  destruct p as [v|c].
  - by destruct (_buildTemplate (scalar_text v) a).
  - by destruct (child (merge a (args c)) c) as [[s l] c1].
Qed.

(** X5.  Every part added to a composer adds one block to the end of its
    text, after a line break, and changes nothing of the text before it:
    the block is the substituted text of a scalar, or the text of the
    nested composer built one level deeper with the mapping of the composer
    merged under its own. *)
Theorem build_push (global : string) (withIntent : bool)
    (indent : option string) (p : part) (this : MessageBuilder) :
  build global withIntent indent (push p this)
  = (let int := effective_indent global indent this in
     let text := part_text global int (args this) p in
     let block := if withIntent then indent_lines int text else text in
     match _parts this with
     | [] => block
     | _ => build global withIntent indent this +:+ newline +:+ block
     end).
Proof.
  destruct this as [ci a ps]. unfold build, build_full, effective_indent.
  cbn [push args customIndent _parts build_with].
  set (int := default (default global ci) indent).
  rewrite (surjective_pairing (map_parts _ int withIntent a (ps ++ [p]))).
  rewrite (surjective_pairing (map_parts _ int withIntent a (ps ++ [p])).1).
  rewrite (surjective_pairing (map_parts _ int withIntent a ps)).
  rewrite (surjective_pairing (map_parts _ int withIntent a ps).1).
  cbn [fst]. rewrite map_parts_app.
  pose proof (map_parts_length
    (λ a' c, build_with global a' true (Some int) c) int withIntent a ps) as Hlen.
  assert ((map_parts (λ a' c, build_with global a' true (Some int) c)
             int withIntent a [p]).1.1
          = [if withIntent
             then indent_lines int (part_text global int a p)
             else part_text global int a p]) as ->.
  { cbn [map_parts]. destruct p as [v|c]; cbn [part_text].
    - by destruct (_buildTemplate (scalar_text v) a).
    - unfold build, build_full. cbn [args].
      replace (build_with global (merge a (args c)) true (Some int)
                 (Builder (customIndent c) (merge a (args c)) (_parts c)))
        with (build_with global (merge a (args c)) true (Some int) c)
        by by destruct c.
      by destruct (build_with global (merge a (args c)) true (Some int) c)
        as [[s l] c1]. }
  destruct ps as [|p0 ps]; [done|].
  rewrite join_app; [done| |done].
  intros Hnil. rewrite Hnil in Hlen. done.
Qed.

(** ** [msg] *)

(** X6.  [msg(s, args).build()] is the template [s] substituted with
    [args], with its warnings, for every string [s]: the empty string, which
    [msg] does not add because it is falsy, gives the empty text as well. *)
Theorem msg_build (global : string) (s : string) (a : gmap string value) :
  (build_full global false None (msg (Some (inl s)) a)).1 = _buildTemplate s a.
Proof.
  unfold msg, build_full. case_decide as Hs.
  - subst s. by rewrite _buildTemplate_empty.
  - cbn [push args build_with map_parts app scalar_text].
    destruct (_buildTemplate s a) as [text log]. cbn. by rewrite app_nil_r.
Qed.

End Facts.
End MBMore.

(** * More on the Turn Sequencer *)

Module PBMore.
Import Str MB PB Spec MBFacts PBFacts MBMore.
Section Facts.
Context `{Host}.

(** X7.  The messages of [buildForAssistant] are the turns of [build] with
    the same filter that are no [system] turns, in the same order and with
    the same text; no message of [buildForAssistant] has the role
    [system]. *)
Theorem buildForAssistant_messages (global : string)
    (filter : option MessageFilter) (this : PromptBuilder) :
  messages (buildForAssistant global filter this)
  = thread_message
      <$> List.filter (λ c, bool_decide (cm_role c ≠ system))
            (PB.build global filter this)
  ∧ Forall (λ t, tm_role t ≠ system)
      (messages (buildForAssistant global filter this)).
Proof.
  unfold buildForAssistant, PB.build. rewrite foldl_partition_step.
  cbn [messages app].
  induction (resolved global filter this) as [|c cs [IH1 IH2]]; [done|].
  rewrite bind_cons. cbn [fmap list_fmap List.filter cm_role].
  unfold thread_part at 1 3. case_decide as Hrole.
  - rewrite bool_decide_eq_false_2 by naive_solver. done.
  - rewrite bool_decide_eq_true_2 by done. cbn [app fmap list_fmap].
    split; [by rewrite IH1|]. by constructor.
Qed.

(** ** Appended turns *)

Lemma resolved_push_message global (m : message) (this : PromptBuilder) :
  resolved global None (push_message m this)
  = resolved global None this ++ [(resolve global (PB.args this) m).1.1].
Proof.
  unfold resolved, push_message. cbn [_messages PB.args _filter].
  rewrite !filter_all. by rewrite fmap_app.
Qed.

Lemma push_turn_of global (call : (scalar + MessageBuilder) * ChatMessageRole * options)
    (this : PromptBuilder) :
  ∃ this',
    _push (plain_input call.1.1) call.1.2 call.2 this = Normal this'
    ∧ PB.args this' = PB.args this
    ∧ PB.build global None this'
      = PB.build global None this ++ [turn_of global (PB.args this) call].
Proof.
  destruct call as [[[v|b] role] o]; cbn [fst snd plain_input _push];
    eexists; (split; [reflexivity|]); (split; [reflexivity|]);
    unfold PB.build;
    rewrite resolved_push_message, fmap_app, resolve_stored_text;
    reflexivity.
Qed.

(** X8.  With composers held by value (no composer object is attached at
    two places), calls of the message methods with scalars and composers
    never throw, and [build] without a filter then gives the turns from before
    followed by one turn for every call, in the order of the calls.  The
    turn has the role of the call, and its text is the scalar substituted
    with the mapping of the sequencer, or the text of the composer built
    with that mapping merged under its own; a field [role] or [content] of
    [options.extra] takes the place of the role or the content of the
    call. *)
Theorem build_push_all (global : string)
    (calls : list ((scalar + MessageBuilder) * ChatMessageRole * options))
    (this : PromptBuilder) :
  ∃ this',
    push_all calls this = Normal this'
    ∧ PB.args this' = PB.args this
    ∧ PB.build global None this'
      = PB.build global None this ++ (turn_of global (PB.args this) <$> calls).
Proof.
  unfold push_all. revert this.
  induction calls as [|call calls IH]; intros this.
  - exists this. by rewrite app_nil_r.
  - cbn [foldl and_then fmap list_fmap].
    destruct (push_turn_of global call this) as (this1 & -> & Hargs & Hbuild).
    destruct (IH this1) as (this' & Hrun & Hargs' & Hbuild').
    exists this'. split; [exact Hrun|]. split; [congruence|].
    rewrite Hbuild', Hbuild, Hargs. by rewrite <- app_assoc.
Qed.

(** ** Builds one after the other *)

Lemma build_with_inherit_again global global' a wi ind wi' ind'
    (this : MessageBuilder) :
  (build_with global a wi ind (build_with global' a wi' ind' this).2).1
  = (build_with global a wi ind this).1.
Proof.
  rewrite (build_with_inherit global' this a wi' ind').
  rewrite <- (build_with_inherit global this a wi ind).
  by rewrite build_with_again.
Qed.

Lemma resolve_after_resolve global global' a (m : message) :
  (resolve global a (resolve global' a m).2).1.1 = (resolve global a m).1.1.
Proof.
  unfold resolve. destruct (content m) as [s|b] eqn:Hm.
  - cbn [snd]. by rewrite Hm.
  - pose proof (build_with_inherit_again global global'
      (merge a (MB.args b)) false None false None b) as Hagain.
    pose proof (build_with_args global' (merge a (MB.args b)) false None b) as Hargs.
    destruct (build_with global' (merge a (MB.args b)) false None b)
      as [[text log] b'].
    cbn [snd content role placeholder] in *. rewrite Hargs, merge_again.
    destruct (build_with global (merge a (MB.args b)) false None b')
      as [[text1 log1] b1].
    destruct (build_with global (merge a (MB.args b)) false None b)
      as [[text2 log2] b2].
    cbn [fst] in *. by injection Hagain as -> ->.
Qed.

Lemma resolve_with_content global a (m : message) :
  (resolve global a m).2 = with_content (content (resolve global a m).2) m.
Proof.
  unfold resolve. destruct m as [r [s|b] p e]; cbn [content]; [done|].
  by destruct (build_with global _ false None b) as [[text log] b'].
Qed.

Lemma resolved_after_build global global'
    (filter filter' : option MessageFilter) (this : PromptBuilder) :
  reads_no_content filter →
  resolved global filter (PB.after_build global' filter' this)
  = resolved global filter this.
Proof.
  intros Hfilter. unfold resolved, PB.after_build. cbn [_messages PB.args].
  induction (_messages this) as [|m ms IH]; [done|].
  cbn [fmap list_fmap List.filter].
  assert (_filter filter
            (if _filter filter' m then (resolve global' (PB.args this) m).2 else m)
          = _filter filter m) as ->.
  { destruct (_filter filter' m); [|done].
    rewrite resolve_with_content. apply Hfilter. }
  destruct (_filter filter m); [|exact IH]. cbn [fmap list_fmap].
  rewrite IH. f_equal.
  destruct (_filter filter' m); [|done]. apply resolve_after_resolve.
Qed.

(** X9.  The builds of a sequencer do not disturb one another.  After a
    [build] or [buildForAssistant] with any filter (and any global
    indentation at that time), [build] and [buildForAssistant] with a
    filter that does not decide on the content of a turn return what they
    return on the sequencer as it was before: the mappings that a build
    overwrites in the composers change no text. *)
Theorem build_after_any_build (global global' : string)
    (filter filter' : option MessageFilter) (this : PromptBuilder) :
  reads_no_content filter →
  PB.build global filter (PB.after_build global' filter' this)
    = PB.build global filter this
  ∧ buildForAssistant global filter (PB.after_build global' filter' this)
    = buildForAssistant global filter this.
Proof.
  intros Hfilter. unfold PB.build, buildForAssistant.
  by rewrite (resolved_after_build global global' filter filter' this Hfilter).
Qed.

(** X10.  The message methods reject a callback by its source text.  A call
    of [_push] throws exactly when its input is a function that was
    declared [async] or whose source text includes the word [async]
    somewhere, be the function synchronous; the sequencer is then as it
    was.  Every other call appends exactly one turn, and no scalar and no
    composer is ever rejected.  The turn carries the role of the call and
    the placeholder of the options, unless [options.extra], which is spread
    last, has a field of that name: then it carries that one. *)
Theorem push_rejects_exactly (message : input) (role : ChatMessageRole)
    (o : options) (this : PromptBuilder) :
  match _push message role o this with
  | Thrown this' e =>
      this' = this
      ∧ ∃ fn, message = IFunction fn
              ∧ (is_async fn = true ∨ includes "async" (source fn) = true)
  | Normal this' =>
      (∃ m, _messages this' = _messages this ++ [m]
            ∧ PB.role m = default role (ex_role (opt_extra o))
            ∧ placeholder m
              = default (opt_placeholder o) (ex_placeholder (opt_extra o))
            ∧ extra m = ex_other (opt_extra o))
      ∧ ∀ fn, message = IFunction fn →
              is_async fn = false ∧ includes "async" (source fn) = false
  end.
Proof.
  unfold _push. destruct message as [v|b|fn].
  - split; [by eexists|done].
  - split; [by eexists|done].
  - destruct (isAsyncFunction fn) eqn:Hfn.
    + split; [done|]. exists fn. split; [done|].
      unfold isAsyncFunction, instanceof_Promise in Hfn.
      destruct (is_async fn); [by left|]. right.
      by destruct (includes "async" (source fn)).
    + split; [by eexists|]. intros fn' [= <-].
      unfold isAsyncFunction, instanceof_Promise in Hfn.
      destruct (is_async fn); [done|].
      by destruct (includes "async" (source fn)).
Qed.

End Facts.
End PBMore.

(** * More on the store *)

Module HeapMore.
Import Str MB Heap Spec HeapFacts.
Section Facts.
Context `{Host}.

Lemma store_parts_cons_inv child this int wi p ps (h : gmap loc instance) r :
  Heap.map_parts child this int wi (p :: ps) h = Some r →
  ∃ me str log h1 strs logs h2,
    h !! this = Some me
    ∧ match p with
      | RRef c =>
          ∃ pc, h !! c = Some pc
                ∧ child (<[c := set_args (merge (h_args me) (h_args pc)) pc]> h) c
                  = Some (str, log, h1)
      | RValue v =>
          h1 = h ∧ _buildTemplate (scalar_text v) (h_args me) = (str, log)
      end
    ∧ Heap.map_parts child this int wi ps h1 = Some (strs, logs, h2)
    ∧ r = ((if wi then indent_lines int str else str) :: strs, log ++ logs, h2).
Proof.
  cbn [Heap.map_parts]. intros Hrun.
  destruct (h !! this) as [me|] eqn:Hme; [|done]. cbn [mbind option_bind] in Hrun.
  destruct p as [v|c].
  - destruct (_buildTemplate (scalar_text v) (h_args me)) as [s l] eqn:Hs.
    cbn [mbind option_bind] in Hrun.
    destruct (Heap.map_parts child this int wi ps h) as [[[strs logs] h2]|] eqn:Hrest;
      [|done].
    cbn [mbind option_bind] in Hrun. injection Hrun as <-.
    by exists me, s, l, h, strs, logs, h2.
  - destruct (h !! c) as [pc|] eqn:Hpc; [|done]. cbn [mbind option_bind] in Hrun.
    destruct (child _ c) as [[[str log] h1]|] eqn:Hc; [|done].
    cbn [mbind option_bind] in Hrun.
    destruct (Heap.map_parts child this int wi ps h1) as [[[strs logs] h2]|] eqn:Hrest;
      [|done].
    cbn [mbind option_bind] in Hrun. injection Hrun as <-.
    exists me, str, log, h1, strs, logs, h2. split; [done|]. split; [|done].
    by exists pc.
Qed.

Lemma store_build_inv fuel global (h : gmap loc instance) l wi ind r :
  Heap.build fuel global h l wi ind = Some r →
  ∃ fuel' o parts log h',
    fuel = S fuel' ∧ h !! l = Some o
    ∧ Heap.map_parts
        (λ h c, Heap.build fuel' global h c true
                  (Some (default (default global (h_customIndent o)) ind)))
        l (default (default global (h_customIndent o)) ind) wi (h_parts o) h
      = Some (parts, log, h')
    ∧ r = (join newline parts, log, h').
Proof.
  destruct fuel as [|fuel]; [done|]. cbn [Heap.build]. intros Hrun.
  destruct (h !! l) as [o|] eqn:Hl; [|done]. cbn [mbind option_bind] in Hrun.
  destruct (Heap.map_parts _ l _ wi (h_parts o) h) as [[[parts log] h']|] eqn:Hparts;
    [|done].
  cbn [mbind option_bind] in Hrun. injection Hrun as <-.
  by exists fuel, o, parts, log, h'.
Qed.

(** ** What a build keeps *)

Lemma grown_refl (h : gmap loc instance) : grown h h.
Proof. intros l. by destruct (h !! l). Qed.

Lemma grown_trans (h1 h2 h3 : gmap loc instance) :
  grown h1 h2 → grown h2 h3 → grown h1 h3.
Proof.
  intros H12 H23 l. specialize (H12 l). specialize (H23 l).
  destruct (h1 !! l) as [o1|], (h2 !! l) as [o2|], (h3 !! l) as [o3|]; try done.
  destruct H12 as (Hi & Hp & Ha), H23 as (Hi' & Hp' & Ha').
  split; [congruence|]. split; [congruence|]. by transitivity (h_args o2).
Qed.

Lemma grown_insert (h : gmap loc instance) c pc (a : gmap string value) :
  h !! c = Some pc → grown h (<[c := set_args (merge a (h_args pc)) pc]> h).
Proof.
  intros Hc l. destruct (decide (l = c)) as [->|Hl].
  - rewrite Hc, lookup_insert_eq. split; [done|]. split; [done|].
    cbn. unfold merge. apply map_union_subseteq_l.
  - rewrite lookup_insert_ne by done. by destruct (h !! l).
Qed.

Lemma grown_lookup (h h' : gmap loc instance) l o :
  grown h h' → h !! l = Some o → ∃ o', h' !! l = Some o' ∧ kept o o'.
Proof.
  intros Hg Hl. specialize (Hg l). rewrite Hl in Hg.
  destruct (h' !! l) as [o'|]; [|done]. by exists o'.
Qed.

Lemma grown_lookup_inv (h h' : gmap loc instance) l o' :
  grown h h' → h' !! l = Some o' → ∃ o, h !! l = Some o ∧ kept o o'.
Proof.
  intros Hg Hl. specialize (Hg l). rewrite Hl in Hg.
  destruct (h !! l) as [o|]; [|done]. by exists o.
Qed.

Lemma store_parts_grown child this int wi :
  (∀ (h : gmap loc instance) c r, child h c = Some r → grown h r.2) →
  ∀ ps h r, Heap.map_parts child this int wi ps h = Some r → grown h r.2.
Proof.
  intros Hchild. induction ps as [|p ps IH]; intros h r Hrun.
  - injection Hrun as <-. apply grown_refl.
  - apply store_parts_cons_inv in Hrun
      as (me & str & log & h1 & strs & logs & h2 & Hme & Hp & Hrest & ->).
    apply IH in Hrest. cbn [snd] in *. destruct p as [v|c].
    + by destruct Hp as [-> _].
    + destruct Hp as (pc & Hpc & Hc). apply Hchild in Hc. cbn [snd] in Hc.
      eapply grown_trans; [|exact Hrest].
      eapply grown_trans; [|exact Hc]. by apply grown_insert.
Qed.

Lemma store_build_grown global fuel :
  ∀ (h : gmap loc instance) l wi ind r,
    Heap.build fuel global h l wi ind = Some r → grown h r.2.
Proof.
  induction fuel as [|fuel IH]; intros h l wi ind r Hrun; [done|].
  apply store_build_inv in Hrun
    as (fuel' & o & parts & log & h' & [= <-] & Hl & Hparts & ->).
  apply (store_parts_grown _ _ _ _ (λ h0 c r0, IH h0 c true _ r0) _ _ _ Hparts).
Qed.

(** ** The second build *)

Lemma grown_same_parts (h h' : gmap loc instance) : grown h h' → same_parts h h'.
Proof.
  intros Hg l. specialize (Hg l).
  destruct (h !! l) as [o|], (h' !! l) as [o'|]; try done.
  destruct Hg as (_ & Hp & _). cbn. by rewrite Hp.
Qed.

Lemma same_parts_lookup (h h' : gmap loc instance) l o :
  same_parts h h' → h !! l = Some o →
  ∃ o', h' !! l = Some o' ∧ h_parts o' = h_parts o.
Proof.
  intros Hs Hl. specialize (Hs l). rewrite Hl in Hs.
  destruct (h' !! l) as [o'|]; [|done]. exists o'. split; [done|].
  cbn in Hs. congruence.
Qed.

Lemma same_parts_sym (h h' : gmap loc instance) : same_parts h h' → same_parts h' h.
Proof. intros Hs l. by rewrite Hs. Qed.

Lemma same_parts_trans (h1 h2 h3 : gmap loc instance) :
  same_parts h1 h2 → same_parts h2 h3 → same_parts h1 h3.
Proof. intros H12 H23 l. by rewrite H12. Qed.

(** Whether the build returns depends on the parts of the objects only. *)
Lemma store_parts_returns child child' this int int' wi wi' :
  (∀ (h : gmap loc instance) c r, child h c = Some r → grown h r.2) →
  (∀ (h : gmap loc instance) c r, child' h c = Some r → grown h r.2) →
  (∀ (h : gmap loc instance) c r, child h c = Some r →
     ∀ h2, same_parts h h2 → ∃ r2, child' h2 c = Some r2) →
  ∀ ps h r, Heap.map_parts child this int wi ps h = Some r →
    ∀ h2, same_parts h h2 →
      ∃ r2, Heap.map_parts child' this int' wi' ps h2 = Some r2.
Proof.
  intros Hg Hg' Hret. induction ps as [|p ps IH]; intros h r Hrun h2 Hs.
  - by eexists.
  - apply store_parts_cons_inv in Hrun
      as (me & str & log & h1 & strs & logs & h3 & Hme & Hp & Hrest & ->).
    destruct (same_parts_lookup h h2 this me Hs Hme) as (me2 & Hme2 & _).
    cbn [Heap.map_parts]. rewrite Hme2. cbn [mbind option_bind].
    destruct p as [v|c].
    + destruct Hp as [-> _].
      destruct (IH h _ Hrest h2 Hs) as ([[strs2 logs2] h4] & Hrest2).
      destruct (_buildTemplate (scalar_text v) (h_args me2)) as [s l].
      cbn [mbind option_bind]. rewrite Hrest2. cbn [mbind option_bind]. by eexists.
    + destruct Hp as (pc & Hpc & Hc).
      destruct (same_parts_lookup h h2 c pc Hs Hpc) as (pc2 & Hpc2 & _).
      rewrite Hpc2. cbn [mbind option_bind].
      set (ha := <[c := set_args (merge (h_args me) (h_args pc)) pc]> h) in *.
      set (hb := <[c := set_args (merge (h_args me2) (h_args pc2)) pc2]> h2).
      assert (same_parts ha hb) as Hab.
      { eapply same_parts_trans; [|apply grown_same_parts, grown_insert, Hpc2].
        eapply same_parts_trans; [|exact Hs].
        apply same_parts_sym, grown_same_parts. by apply grown_insert. }
      destruct (Hret _ _ _ Hc hb Hab) as ([[s2 l2] h4] & Hc2).
      rewrite Hc2. cbn [mbind option_bind].
      assert (same_parts h1 h4) as H14.
      { apply Hg in Hc. apply Hg' in Hc2. cbn [snd] in *.
        eapply same_parts_trans; [|apply grown_same_parts, Hc2].
        eapply same_parts_trans; [|exact Hab].
        by apply same_parts_sym, grown_same_parts. }
      destruct (IH h1 _ Hrest h4 H14) as ([[strs2 logs2] h5] & Hrest2).
      rewrite Hrest2. cbn [mbind option_bind]. by eexists.
Qed.

Lemma store_build_returns global global' fuel :
  ∀ (h : gmap loc instance) l wi ind r,
    Heap.build fuel global h l wi ind = Some r →
    ∀ h2 wi' ind', same_parts h h2 →
      ∃ r2, Heap.build fuel global' h2 l wi' ind' = Some r2.
Proof.
  induction fuel as [|fuel IH]; intros h l wi ind r Hrun h2 wi' ind' Hs; [done|].
  apply store_build_inv in Hrun
    as (fuel' & o & parts & log & h' & [= <-] & Hl & Hparts & ->).
  destruct (same_parts_lookup h h2 l o Hs Hl) as (o2 & Hl2 & Hp2).
  cbn [Heap.build]. rewrite Hl2. cbn [mbind option_bind]. rewrite Hp2.
  destruct (store_parts_returns
    (λ h c, Heap.build fuel global h c true
              (Some (default (default global (h_customIndent o)) ind)))
    (λ h c, Heap.build fuel global' h c true
              (Some (default (default global' (h_customIndent o2)) ind')))
    l (default (default global (h_customIndent o)) ind)
    (default (default global' (h_customIndent o2)) ind') wi wi')
    with (ps := h_parts o) (h := h) (r := (parts, log, h')) (h2 := h2)
    as ([[parts2 log2] h4] & Hparts2); try done.
  - intros h0 c r0. apply store_build_grown.
  - intros h0 c r0. apply store_build_grown.
  - intros h0 c r0 Hc h3 Hs3. by apply (IH h0 c true _ r0 Hc).
  - rewrite Hparts2. cbn [mbind option_bind]. by eexists.
Qed.

Lemma union_same_keys (a b : gmap string value) : dom b ⊆ dom a → a ∪ b = a.
Proof.
  intros Hdom. apply map_eq. intros k. rewrite lookup_union.
  destruct (a !! k) as [v|] eqn:Ha; [by destruct (b !! k)|].
  destruct (b !! k) as [w|] eqn:Hb; [|done].
  assert (k ∈ dom a) as Hk by (apply Hdom, elem_of_dom; by eexists).
  apply elem_of_dom in Hk as [v Hv]. congruence.
Qed.

(** On a settled part of the store a build writes nothing. *)
Lemma store_parts_unchanged child this int wi (h : gmap loc instance)
    (V : gset loc) :
  (∀ c r, c ∈ V → child h c = Some r → r.2 = h) →
  ∀ ps, (∀ c, RRef c ∈ ps → c ∈ V ∧ edge_ok h this c) →
    ∀ r, Heap.map_parts child this int wi ps h = Some r → r.2 = h.
Proof.
  intros Hchild. induction ps as [|p ps IH]; intros Hps r Hrun.
  - by injection Hrun as <-.
  - apply store_parts_cons_inv in Hrun
      as (me & str & log & h1 & strs & logs & h2 & Hme & Hp & Hrest & ->).
    cbn [snd]. destruct p as [v|c].
    + destruct Hp as [-> _]. apply IH in Hrest; [done|].
      intros c Hc. apply Hps. by apply list_elem_of_further.
    + destruct Hp as (pc & Hpc & Hc).
      destruct (Hps c) as [HcV (o & oc & Ho & Hoc & Hdom)];
        [apply list_elem_of_here|].
      rewrite Hme in Ho. injection Ho as <-.
      rewrite Hpc in Hoc. injection Hoc as <-.
      assert (<[c := set_args (merge (h_args me) (h_args pc)) pc]> h = h) as Heq.
      { apply insert_id. rewrite Hpc. f_equal. unfold merge.
        rewrite union_same_keys by done. by destruct pc. }
      rewrite Heq in Hc. apply Hchild in Hc; [|done]. cbn [snd] in Hc. subst h1.
      apply IH in Hrest; [done|].
      intros c' Hc'. apply Hps. by apply list_elem_of_further.
Qed.

Lemma store_build_unchanged global fuel (h : gmap loc instance) (V : gset loc) :
  settled h V →
  ∀ l wi ind r, l ∈ V → Heap.build fuel global h l wi ind = Some r → r.2 = h.
Proof.
  intros Hset. induction fuel as [|fuel IH]; intros l wi ind r Hl Hrun; [done|].
  apply store_build_inv in Hrun
    as (fuel' & o & parts & log & h' & [= <-] & Hlo & Hparts & ->).
  apply (store_parts_unchanged _ _ _ _ h V) in Hparts; [done| |].
  - intros c r HcV Hc. by apply IH in Hc.
  - intros c Hc. by apply (Hset l o c).
Qed.

Lemma edge_ok_grown (h h' : gmap loc instance) p c :
  edge_ok h p c → h' !! p = h !! p → grown h h' → edge_ok h' p c.
Proof.
  intros (o & oc & Ho & Hoc & Hdom) Hp Hg.
  destruct (grown_lookup h h' c oc Hg Hoc) as (oc' & Hoc' & _ & _ & Hargs).
  exists o, oc'. split; [by rewrite Hp|]. split; [done|].
  etransitivity; [exact Hdom|]. by apply subseteq_dom.
Qed.

Lemma settled_union (h1 h2 : gmap loc instance) (W V : gset loc) :
  settled h1 W → settled h2 V → grown h1 h2 →
  (∀ q, q ∉ V → h2 !! q = h1 !! q) →
  settled h2 (W ∪ V).
Proof.
  intros HW HV Hg Hout p o c Hp Ho Hc.
  destruct (decide (p ∈ V)) as [HpV|HpV].
  - destruct (HV p o c HpV Ho Hc). split; [set_solver|done].
  - assert (p ∈ W) as HpW by set_solver.
    rewrite Hout in Ho by done. destruct (HW p o c HpW Ho Hc) as [HcW Hedge].
    split; [set_solver|]. apply edge_ok_grown with h1; [done| |done].
    by apply Hout.
Qed.

(** The objects that a build went through are settled when it returns, and
    it wrote to no other. *)
Lemma store_parts_settles child this int wi :
  (∀ (h : gmap loc instance) c r, child h c = Some r → grown h r.2) →
  (∀ (h : gmap loc instance) c r, child h c = Some r →
     ∃ V : gset loc, c ∈ V ∧ settled r.2 V ∧ ∀ q, q ∉ V → r.2 !! q = h !! q) →
  ∀ ps h r, Heap.map_parts child this int wi ps h = Some r →
    (∀ me c, h !! this = Some me → RRef c ∈ ps → RRef c ∈ h_parts me) →
    ∃ V : gset loc,
      settled r.2 V
      ∧ (∀ q, q ∉ V → r.2 !! q = h !! q)
      ∧ ∀ c, RRef c ∈ ps → c ∈ V ∧ edge_ok r.2 this c.
Proof.
  intros Hgrow Hchild. induction ps as [|p ps IH]; intros h r Hrun Hsub.
  - injection Hrun as <-. exists ∅. split; [|split; [done|]].
    + intros p o c Hp. set_solver.
    + intros c Hc. by apply elem_of_nil in Hc.
  - apply store_parts_cons_inv in Hrun
      as (me & str & log & h1 & strs & logs & h2 & Hme & Hp & Hrest & ->).
    cbn [snd].
    pose proof (store_parts_grown child this int wi Hgrow ps h1 _ Hrest) as Hg12.
    cbn [snd] in Hg12.
    destruct p as [v|c].
    + destruct Hp as [-> _].
      destruct (IH h _ Hrest) as (V & Hset & Hout & Hedges).
      { intros me' c' Hme' Hc'. apply Hsub; [done|]. by apply list_elem_of_further. }
      exists V. split; [done|]. split; [done|].
      intros c' Hc'. apply elem_of_cons in Hc' as [?|Hc']; [done|]. by apply Hedges.
    + destruct Hp as (pc & Hpc & Hc).
      set (ha := <[c := set_args (merge (h_args me) (h_args pc)) pc]> h) in *.
      assert (grown h ha) as Hg0a by by apply grown_insert.
      pose proof (Hgrow _ _ _ Hc) as Hga1. cbn [snd] in Hga1.
      assert (grown h h1) as Hg01 by by eapply grown_trans.
      assert (grown h h2) as Hg02 by by eapply grown_trans.
      destruct (Hchild _ _ _ Hc) as (W & HcW & HsetW & HoutW). cbn [snd] in *.
      assert (RRef c ∈ h_parts me) as Hcme.
      { apply Hsub; [done|]. apply list_elem_of_here. }
      destruct (IH h1 _ Hrest) as (V & HsetV & HoutV & Hedges).
      { intros me1 c' Hme1 Hc'.
        destruct (grown_lookup_inv h h1 this me1 Hg01 Hme1)
          as (me0 & Hme0 & _ & Hparts & _).
        rewrite Hparts. apply Hsub; [done|]. by apply list_elem_of_further. }
      cbn [snd] in *.
      exists (W ∪ V). split; [by apply settled_union with h1|]. split.
      * intros q Hq. rewrite HoutV by set_solver. rewrite HoutW by set_solver.
        unfold ha. apply lookup_insert_ne. intros ->. set_solver.
      * intros c' Hc'. apply elem_of_cons in Hc' as [[= ->]|Hc'].
        -- split; [set_solver|].
           destruct (decide (this ∈ V)) as [HtV|HtV].
           { destruct (grown_lookup h h2 this me Hg02 Hme)
               as (me2 & Hme2 & _ & Hparts & _).
             apply (HsetV this me2 c HtV Hme2). by rewrite Hparts. }
           destruct (decide (this ∈ W)) as [HtW|HtW].
           { destruct (grown_lookup h h1 this me Hg01 Hme)
               as (me1 & Hme1 & _ & Hparts & _).
             apply edge_ok_grown with h1; [|by apply HoutV|done].
             apply (HsetW this me1 c HtW Hme1). by rewrite Hparts. }
           assert (this ≠ c) as Hne by (intros ->; done).
           assert (edge_ok ha this c) as Hedge.
           { exists me, (set_args (merge (h_args me) (h_args pc)) pc).
             unfold ha. rewrite lookup_insert_ne by done. rewrite lookup_insert_eq.
             split; [done|]. split; [done|]. cbn. unfold merge.
             rewrite dom_union. set_solver. }
           apply edge_ok_grown with h1; [|by apply HoutV|done].
           apply edge_ok_grown with ha; [done|by apply HoutW|done].
        -- destruct (Hedges c' Hc'). split; [set_solver|done].
Qed.

Lemma store_build_settles global fuel :
  ∀ (h : gmap loc instance) l wi ind r,
    Heap.build fuel global h l wi ind = Some r →
    ∃ V : gset loc, l ∈ V ∧ settled r.2 V ∧ ∀ q, q ∉ V → r.2 !! q = h !! q.
Proof.
  induction fuel as [|fuel IH]; intros h l wi ind r Hrun; [done|].
  pose proof (store_build_grown global _ _ _ _ _ _ Hrun) as Hg.
  apply store_build_inv in Hrun
    as (fuel' & o & parts & log & h' & [= <-] & Hl & Hparts & ->).
  cbn [snd] in *.
  destruct (store_parts_settles _ _ _ _
              (λ h0 c r0, store_build_grown global fuel h0 c true _ r0)
              (λ h0 c r0, IH h0 c true _ r0) _ _ _ Hparts)
    as (V & Hset & Hout & Hedges).
  { intros me c Hme Hc. rewrite Hl in Hme. by injection Hme as <-. }
  cbn [snd] in *. exists ({[l]} ∪ V). split; [set_solver|]. split.
  - intros p o' c Hp Ho' Hc. destruct (decide (p ∈ V)) as [HpV|HpV].
    + destruct (Hset p o' c HpV Ho' Hc). split; [set_solver|done].
    + assert (p = l) as -> by set_solver.
      destruct (grown_lookup h h' l o Hg Hl) as (o2 & Ho2 & _ & Hp2 & _).
      rewrite Ho' in Ho2. injection Ho2 as <-. rewrite Hp2 in Hc.
      destruct (Hedges c Hc). split; [set_solver|done].
  - intros q Hq. apply Hout. set_solver.
Qed.

(** X12.  On every store, be a composer attached at several places or not:
    after a [build] that returned, every later [build] of the same composer
    returns, whatever its arguments and the global indentation are, and
    leaves the store as it found it.  So the text can change between the
    first build and the second, and never after the second. *)
Theorem build_settles (fuel : nat) (global global' : string)
    (h : gmap loc instance) (this : loc)
    (withIntent withIntent' : bool) (indent indent' : option string)
    (text : string) (log : list string) (h1 : gmap loc instance) :
  Heap.build fuel global h this withIntent indent = Some (text, log, h1) →
  ∃ text' log',
    Heap.build fuel global' h1 this withIntent' indent' = Some (text', log', h1).
Proof.
  intros Hrun.
  destruct (store_build_settles global fuel _ _ _ _ _ Hrun) as (V & Hl & Hset & _).
  pose proof (store_build_grown global _ _ _ _ _ _ Hrun) as Hg. cbn [snd] in *.
  destruct (store_build_returns global global' fuel _ _ _ _ _ Hrun h1
              withIntent' indent' (grown_same_parts _ _ Hg))
    as ([[text' log'] h2] & Hrun2).
  exists text', log'. rewrite Hrun2.
  apply (store_build_unchanged global' fuel h1 V Hset) in Hrun2; [|done].
  cbn [snd] in Hrun2. by subst h2.
Qed.

(** ** A composer nested in itself *)

Lemma reaches_grown (h h' : gmap loc instance) l l' :
  grown h h' → reaches h l l' → reaches h' l l'.
Proof.
  intros Hg. induction 1 as [l o c Hl Hc|l o c l' Hl Hc _ IH];
    destruct (grown_lookup h h' l o Hg Hl) as (o' & Hl' & _ & Hparts & _).
  - apply reaches_part with o'; [done|]. by rewrite Hparts.
  - apply reaches_further with o' c; [done| |done]. by rewrite Hparts.
Qed.

Lemma reaches_snoc (h : gmap loc instance) l c o c' :
  reaches h l c → h !! c = Some o → RRef c' ∈ h_parts o → reaches h l c'.
Proof.
  induction 1 as [l o0 c Hl Hc|l o0 c l' Hl Hc _ IH]; intros Ho Hc'.
  - apply reaches_further with o0 c; [done..|]. by apply reaches_part with o.
  - apply reaches_further with o0 c; [done..|]. by apply IH.
Qed.

(** Every nested composer of a build that returned was built, on a store
    that held every object with the parts it had. *)
Lemma store_parts_child_ran child this int wi :
  (∀ (h : gmap loc instance) c r, child h c = Some r → grown h r.2) →
  ∀ ps h r c, Heap.map_parts child this int wi ps h = Some r → RRef c ∈ ps →
    ∃ h0 r0, grown h h0 ∧ child h0 c = Some r0.
Proof.
  intros Hgrow. induction ps as [|p ps IH]; intros h r c Hrun Hc.
  - by apply elem_of_nil in Hc.
  - apply store_parts_cons_inv in Hrun
      as (me & str & log & h1 & strs & logs & h2 & Hme & Hp & Hrest & ->).
    destruct p as [v|c0].
    + destruct Hp as [-> _]. apply elem_of_cons in Hc as [?|Hc]; [done|].
      by apply (IH h _ c Hrest).
    + destruct Hp as (pc & Hpc & Hc0).
      assert (grown h (<[c0 := set_args (merge (h_args me) (h_args pc)) pc]> h))
        as Hg0 by by apply grown_insert.
      apply elem_of_cons in Hc as [[= ->]|Hc].
      * by eexists _, _.
      * destruct (IH h1 _ c Hrest Hc) as (h0 & r0 & Hg & Hran).
        exists h0, r0. split; [|done].
        eapply grown_trans; [exact Hg0|].
        eapply grown_trans; [|exact Hg]. apply (Hgrow _ _ _ Hc0).
Qed.

Lemma store_build_cycle global fuel :
  ∀ (h : gmap loc instance) l wi ind,
    reaches h l l → Heap.build fuel global h l wi ind = None.
Proof.
  induction fuel as [|fuel IH]; intros h l wi ind Hcyc; [done|].
  destruct (Heap.build (S fuel) global h l wi ind) as [r|] eqn:Hrun; [|done].
  exfalso.
  apply store_build_inv in Hrun
    as (fuel' & o & parts & log & h' & [= <-] & Hl & Hparts & ->).
  assert (∃ c, RRef c ∈ h_parts o ∧ reaches h c c) as (c & Hc & Hcc).
  { inversion Hcyc as [l0 o0 c Hl0 Hc|l0 o0 c l1 Hl0 Hc Hback]; subst;
      rewrite Hl in Hl0; injection Hl0 as <-.
    - by exists l.
    - exists c. split; [done|]. by apply reaches_snoc with l o. }
  destruct (store_parts_child_ran _ _ _ _
              (λ h0 c0 r0, store_build_grown global fuel h0 c0 true _ r0)
              _ _ _ c Hparts Hc) as (h0 & r0 & Hg & Hran).
  rewrite IH in Hran; [done|]. by apply reaches_grown with h.
Qed.

(** X13.  A composer that is nested in itself, directly or through other
    composers, cannot be built: with whatever bound on the depth of the
    nested calls, [build] does not return. *)
Theorem build_of_cycle (fuel : nat) (global : string) (h : gmap loc instance)
    (this : loc) (withIntent : bool) (indent : option string) :
  reaches h this this →
  Heap.build fuel global h this withIntent indent = None.
Proof.
  revert h this withIntent indent.
  induction fuel as [|fuel IH]; intros h l wi ind Hcyc; [done|].
  destruct (Heap.build (S fuel) global h l wi ind) as [r|] eqn:Hrun; [|done].
  exfalso.
  apply store_build_inv in Hrun
    as (fuel' & o & parts & log & h' & [= <-] & Hl & Hparts & ->).
  assert (∃ c, RRef c ∈ h_parts o ∧ reaches h c c) as (c & Hc & Hcc).
  { inversion Hcyc as [l0 o0 c Hl0 Hc|l0 o0 c l1 Hl0 Hc Hback]; subst;
      rewrite Hl in Hl0; injection Hl0 as <-.
    - by exists l.
    - exists c. split; [done|]. by apply reaches_snoc with l o. }
  destruct (store_parts_child_ran _ _ _ _
              (λ h0 c0 r0, store_build_grown global fuel h0 c0 true _ r0)
              _ _ _ c Hparts Hc) as (h0 & r0 & Hg & Hran).
  rewrite IH in Hran; [done|]. by apply reaches_grown with h.
Qed.

(** ** What a build writes *)

Lemma reaches_same_parts (h h' : gmap loc instance) l l' :
  same_parts h h' → reaches h l l' → reaches h' l l'.
Proof.
  intros Hs. induction 1 as [l o c Hl Hc|l o c l' Hl Hc _ IH];
    destruct (same_parts_lookup h h' l o Hs Hl) as (o' & Hl' & Hparts).
  - apply reaches_part with o'; [done|]. by rewrite Hparts.
  - apply reaches_further with o' c; [done| |done]. by rewrite Hparts.
Qed.

Lemma reaches_trans (h : gmap loc instance) a b c :
  reaches h a b → reaches h b c → reaches h a c.
Proof.
  induction 1 as [l o c0 Hl Hc|l o c0 l' Hl Hc _ IH]; intros Hbc.
  - by apply reaches_further with o c0.
  - apply reaches_further with o c0; [done..|]. by apply IH.
Qed.

(** A build writes to composers nested in the one it builds, and to no
    other object. *)
Lemma store_parts_frame child this int wi :
  (∀ (h : gmap loc instance) c r, child h c = Some r → grown h r.2) →
  (∀ (h : gmap loc instance) c r, child h c = Some r →
     ∀ q, ¬ reaches h c q → r.2 !! q = h !! q) →
  ∀ ps h r, Heap.map_parts child this int wi ps h = Some r →
    (∀ me c, h !! this = Some me → RRef c ∈ ps → RRef c ∈ h_parts me) →
    ∀ q, ¬ reaches h this q → r.2 !! q = h !! q.
Proof.
  intros Hgrow Hframe. induction ps as [|p ps IH]; intros h r Hrun Hsub q Hq.
  - by injection Hrun as <-.
  - apply store_parts_cons_inv in Hrun
      as (me & str & log & h1 & strs & logs & h2 & Hme & Hp & Hrest & ->).
    cbn [snd]. destruct p as [v|c].
    + destruct Hp as [-> _]. apply (IH h _ Hrest); [|done].
      intros me' c' Hme' Hc'. apply Hsub; [done|]. by apply list_elem_of_further.
    + destruct Hp as (pc & Hpc & Hc).
      set (ha := <[c := set_args (merge (h_args me) (h_args pc)) pc]> h) in *.
      assert (grown h ha) as Hg0 by by apply grown_insert.
      pose proof (Hgrow _ _ _ Hc) as Hga1. cbn [snd] in Hga1.
      assert (grown h h1) as Hg01 by by eapply grown_trans.
      assert (reaches h this c) as Hedge.
      { apply reaches_part with me; [done|]. apply Hsub; [done|].
        apply list_elem_of_here. }
      assert (q ≠ c) as Hqc by (intros ->; done).
      transitivity (h1 !! q).
      * apply (IH h1 _ Hrest).
        -- intros me1 c' Hme1 Hc'.
           destruct (grown_lookup_inv h h1 this me1 Hg01 Hme1)
             as (me0 & Hme0 & _ & Hparts & _).
           rewrite Hparts. apply Hsub; [done|]. by apply list_elem_of_further.
        -- intros Hreach. apply Hq.
           apply (reaches_same_parts h1 h); [|done].
           by apply same_parts_sym, grown_same_parts.
      * transitivity (ha !! q).
        -- apply (Hframe _ _ _ Hc). intros Hreach. apply Hq.
           apply reaches_trans with c; [done|].
           apply (reaches_same_parts ha h); [|done].
           by apply same_parts_sym, grown_same_parts.
        -- unfold ha. by apply lookup_insert_ne.
Qed.

Lemma store_build_frame global fuel :
  ∀ (h : gmap loc instance) l wi ind r,
    Heap.build fuel global h l wi ind = Some r →
    ∀ q, ¬ reaches h l q → r.2 !! q = h !! q.
Proof.
  induction fuel as [|fuel IH]; intros h l wi ind r Hrun q Hq; [done|].
  apply store_build_inv in Hrun
    as (fuel' & o & parts & log & h' & [= <-] & Hl & Hparts & ->).
  apply (store_parts_frame _ _ _ _
           (λ h0 c r0, store_build_grown global fuel h0 c true _ r0)
           (λ h0 c r0, IH h0 c true _ r0) _ _ _ Hparts); [|done].
  intros me c Hme Hc. rewrite Hl in Hme. by injection Hme as <-.
Qed.

Lemma handed_down_refl (h : gmap loc instance) : handed_down h h.
Proof. intros l o k v Hl Hk. exists l, o. split; [by left|done]. Qed.

Lemma handed_down_trans (h1 h2 h3 : gmap loc instance) :
  same_parts h1 h2 → handed_down h1 h2 → handed_down h2 h3 →
  handed_down h1 h3.
Proof.
  intros Hs H12 H23 l o3 k v Hl Hk.
  destruct (H23 l o3 k v Hl Hk) as (l0 & o0 & Hpath & Hl0 & Hk0).
  destruct (H12 l0 o0 k v Hl0 Hk0) as (l00 & o00 & Hpath0 & Hl00 & Hk00).
  exists l00, o00. split; [|done].
  assert (l0 = l ∨ reaches h1 l0 l) as Hpath1.
  { destruct Hpath as [->|Hreach]; [by left|]. right.
    apply (reaches_same_parts h2 h1); [by apply same_parts_sym|done]. }
  destruct Hpath0 as [->|Hreach0]; [done|].
  destruct Hpath1 as [<-|Hreach1]; [by right|].
  right. by apply reaches_trans with l0.
Qed.

Lemma handed_down_insert (h : gmap loc instance) this me c pc :
  h !! this = Some me → h !! c = Some pc → RRef c ∈ h_parts me →
  handed_down h (<[c := set_args (merge (h_args me) (h_args pc)) pc]> h).
Proof.
  intros Hme Hpc Hc l o' k v Hl Hk.
  destruct (decide (l = c)) as [->|Hne].
  - rewrite lookup_insert_eq in Hl. injection Hl as <-. cbn in Hk.
    unfold merge in Hk. apply lookup_union_Some_raw in Hk as [Hk|[_ Hk]].
    + exists c, pc. split; [by left|done].
    + exists this, me. split; [|done]. right. by apply reaches_part with me.
  - rewrite lookup_insert_ne in Hl by done. exists l, o'. split; [by left|done].
Qed.

Lemma store_parts_handed_down child this int wi :
  (∀ (h : gmap loc instance) c r, child h c = Some r → grown h r.2) →
  (∀ (h : gmap loc instance) c r, child h c = Some r → handed_down h r.2) →
  ∀ ps h r, Heap.map_parts child this int wi ps h = Some r →
    (∀ me c, h !! this = Some me → RRef c ∈ ps → RRef c ∈ h_parts me) →
    handed_down h r.2.
Proof.
  intros Hgrow Hdown. induction ps as [|p ps IH]; intros h r Hrun Hsub.
  - injection Hrun as <-. apply handed_down_refl.
  - apply store_parts_cons_inv in Hrun
      as (me & str & log & h1 & strs & logs & h2 & Hme & Hp & Hrest & ->).
    cbn [snd]. destruct p as [v|c].
    + destruct Hp as [-> _]. apply (IH h _ Hrest).
      intros me' c' Hme' Hc'. apply Hsub; [done|]. by apply list_elem_of_further.
    + destruct Hp as (pc & Hpc & Hc).
      set (ha := <[c := set_args (merge (h_args me) (h_args pc)) pc]> h) in *.
      assert (grown h ha) as Hg0 by by apply grown_insert.
      pose proof (Hgrow _ _ _ Hc) as Hga1. cbn [snd] in Hga1.
      assert (grown h h1) as Hg01 by by eapply grown_trans.
      apply handed_down_trans with h1; [by apply grown_same_parts| |].
      * apply handed_down_trans with ha; [by apply grown_same_parts| |].
        -- apply (handed_down_insert h this me c pc Hme Hpc).
           apply Hsub; [done|]. apply list_elem_of_here.
        -- apply (Hdown _ _ _ Hc).
      * apply (IH h1 _ Hrest). intros me1 c' Hme1 Hc'.
        destruct (grown_lookup_inv h h1 this me1 Hg01 Hme1)
          as (me0 & Hme0 & _ & Hparts & _).
        rewrite Hparts. apply Hsub; [done|]. by apply list_elem_of_further.
Qed.

Lemma store_build_handed_down global fuel :
  ∀ (h : gmap loc instance) l wi ind r,
    Heap.build fuel global h l wi ind = Some r → handed_down h r.2.
Proof.
  induction fuel as [|fuel IH]; intros h l wi ind r Hrun; [done|].
  apply store_build_inv in Hrun
    as (fuel' & o & parts & log & h' & [= <-] & Hl & Hparts & ->).
  apply (store_parts_handed_down _ _ _ _
           (λ h0 c r0, store_build_grown global fuel h0 c true _ r0)
           (λ h0 c r0, IH h0 c true _ r0) _ _ _ Hparts).
  intros me c Hme Hc. rewrite Hl in Hme. by injection Hme as <-.
Qed.

(** X11.  What a build writes, on every store, be a composer attached at
    several places or not.  When [build] returns, the store holds the
    objects it held and no other, each with the indentation and the parts
    it had and with a mapping that holds every key it held with the value
    it had.  The composer that was built and every object that is not
    nested in it, at whatever depth, are as they were.  And every entry of
    the mapping of a nested composer was an entry of its own mapping
    before, or of the mapping of a composer it is nested in: a build hands
    entries down to nested composers, and does nothing else to the
    store. *)
Theorem build_grows (fuel : nat) (global : string) (h : gmap loc instance)
    (this : loc) (withIntent : bool) (indent : option string)
    (text : string) (log : list string) (h' : gmap loc instance) :
  Heap.build fuel global h this withIntent indent = Some (text, log, h') →
  grown h h'
  ∧ h' !! this = h !! this
  ∧ (∀ l, ¬ reaches h this l → h' !! l = h !! l)
  ∧ handed_down h h'.
Proof.
  intros Hrun.
  assert (∀ l, ¬ reaches h this l → h' !! l = h !! l) as Hframe.
  { intros l Hl. by apply (store_build_frame _ _ _ _ _ _ _ Hrun l). }
  split; [by apply store_build_grown in Hrun|]. split; [|split; [exact Hframe|]].
  - apply Hframe. intros Hcycle.
    by rewrite (store_build_cycle global fuel h this withIntent indent Hcycle)
      in Hrun.
  - by apply store_build_handed_down in Hrun.
Qed.

(** ** Composers that are not nested in themselves *)

Lemma store_parts_mono child child' this int wi :
  (∀ (h : gmap loc instance) c r, child h c = Some r → child' h c = Some r) →
  ∀ ps h r, Heap.map_parts child this int wi ps h = Some r →
    Heap.map_parts child' this int wi ps h = Some r.
Proof.
  intros Hchild. induction ps as [|p ps IH]; intros h r Hrun; [done|].
  apply store_parts_cons_inv in Hrun
    as (me & str & log & h1 & strs & logs & h2 & Hme & Hp & Hrest & ->).
  apply IH in Hrest. cbn [Heap.map_parts]. rewrite Hme. cbn [mbind option_bind].
  destruct p as [v|c].
  - destruct Hp as [-> ->]. cbn [mbind option_bind]. by rewrite Hrest.
  - destruct Hp as (pc & Hpc & Hc). rewrite Hpc. cbn [mbind option_bind].
    rewrite (Hchild _ _ _ Hc). cbn [mbind option_bind]. by rewrite Hrest.
Qed.

(** A larger bound on the depth gives the same result. *)
Lemma store_build_more_fuel global fuel :
  ∀ (h : gmap loc instance) l wi ind r,
    Heap.build fuel global h l wi ind = Some r →
    ∀ fuel', fuel ≤ fuel' → Heap.build fuel' global h l wi ind = Some r.
Proof.
  induction fuel as [|fuel IH]; intros h l wi ind r Hrun fuel' Hfuel; [done|].
  destruct fuel' as [|fuel']; [lia|].
  apply store_build_inv in Hrun
    as (fuel0 & o & parts & log & h' & [= <-] & Hl & Hparts & ->).
  cbn [Heap.build]. rewrite Hl. cbn [mbind option_bind].
  rewrite (store_parts_mono _
             (λ h c, Heap.build fuel' global h c true
                       (Some (default (default global (h_customIndent o)) ind)))
             _ _ _ (λ h0 c r0 Hc, IH h0 c true _ r0 Hc fuel' ltac:(lia))
             _ _ _ Hparts).
  done.
Qed.

Lemma ranked_edge rank (h : gmap loc instance) p o c :
  ranked rank h → h !! p = Some o → RRef c ∈ h_parts o →
  is_Some (h !! c) ∧ rank c < rank p.
Proof.
  intros Hr Hp Hc. specialize (Hr p o Hp). cbn in Hr.
  rewrite forallb_forall in Hr. apply list_elem_of_In, Hr in Hc. cbn in Hc.
  apply andb_true_iff in Hc as [Hsome Hlt].
  split; [by apply bool_decide_eq_true in Hsome|by apply bool_decide_eq_true in Hlt].
Qed.

Lemma ranked_grown rank (h h' : gmap loc instance) :
  grown h h' → ranked rank h → ranked rank h'.
Proof.
  intros Hg Hr p o' Hp. cbn. rewrite forallb_forall. intros part Hpart.
  destruct (grown_lookup_inv h h' p o' Hg Hp) as (o & Ho & _ & Hparts & _).
  destruct part as [v|c]; [done|]. cbn.
  rewrite Hparts in Hpart. apply list_elem_of_In in Hpart.
  destruct (ranked_edge rank h p o c Hr Ho Hpart) as [[oc Hoc] Hlt].
  destruct (grown_lookup h h' c oc Hg Hoc) as (oc' & Hoc' & _).
  apply andb_true_iff. split; apply bool_decide_eq_true; [by eexists|done].
Qed.

Lemma store_parts_rank_returns rank child this int wi :
  (∀ (h : gmap loc instance) c r, child h c = Some r → grown h r.2) →
  (∀ (h : gmap loc instance) c,
     ranked rank h → is_Some (h !! c) → rank c < rank this →
     ∃ r, child h c = Some r) →
  ∀ ps h,
    ranked rank h → is_Some (h !! this) →
    (∀ c, RRef c ∈ ps → is_Some (h !! c) ∧ rank c < rank this) →
    ∃ r, Heap.map_parts child this int wi ps h = Some r.
Proof.
  intros Hgrow Hret. induction ps as [|p ps IH]; intros h Hr [me Hme] Hps.
  - by eexists.
  - cbn [Heap.map_parts]. rewrite Hme. cbn [mbind option_bind].
    destruct p as [v|c].
    + destruct (IH h Hr) as ([[strs logs] h2] & Hrest); [by eexists| |].
      { intros c Hc. apply Hps. by apply list_elem_of_further. }
      destruct (_buildTemplate (scalar_text v) (h_args me)) as [s l].
      cbn [mbind option_bind]. rewrite Hrest. cbn [mbind option_bind]. by eexists.
    + destruct (Hps c) as [[pc Hpc] Hlt]; [apply list_elem_of_here|].
      rewrite Hpc. cbn [mbind option_bind].
      set (ha := <[c := set_args (merge (h_args me) (h_args pc)) pc]> h).
      assert (grown h ha) as Hg0 by by apply grown_insert.
      destruct (Hret ha c) as ([[s l] h1] & Hc); [by eapply ranked_grown| |done|].
      { destruct (grown_lookup h ha c pc Hg0 Hpc) as (pc' & Hpc' & _). by eexists. }
      rewrite Hc. cbn [mbind option_bind].
      pose proof (Hgrow _ _ _ Hc) as Hg1. cbn [snd] in Hg1.
      assert (grown h h1) as Hg by by eapply grown_trans.
      destruct (IH h1) as ([[strs logs] h2] & Hrest).
      { by eapply ranked_grown. }
      { destruct (grown_lookup h h1 this me Hg Hme) as (me1 & Hme1 & _). by eexists. }
      { intros c' Hc'. destruct (Hps c') as [[oc Hoc] Hlt'];
          [by apply list_elem_of_further|].
        split; [|done].
        destruct (grown_lookup h h1 c' oc Hg Hoc) as (oc1 & Hoc1 & _). by eexists. }
      rewrite Hrest. cbn [mbind option_bind]. by eexists.
Qed.

Lemma store_build_ranked rank global fuel :
  ∀ (h : gmap loc instance) l wi ind,
    ranked rank h → is_Some (h !! l) → rank l < fuel →
    ∃ r, Heap.build fuel global h l wi ind = Some r.
Proof.
  induction fuel as [|fuel IH]; intros h l wi ind Hr [o Hl] Hfuel; [lia|].
  cbn [Heap.build]. rewrite Hl. cbn [mbind option_bind].
  assert (∃ r, Heap.map_parts
                 (λ h c, Heap.build fuel global h c true
                           (Some (default (default global (h_customIndent o)) ind)))
                 l (default (default global (h_customIndent o)) ind) wi
                 (h_parts o) h = Some r) as ([[parts log] h'] & Hparts).
  { apply (store_parts_rank_returns rank).
    - intros h0 c r0. apply store_build_grown.
    - intros h0 c Hr0 Hc Hlt. apply IH; [done..|lia].
    - exact Hr.
    - by eexists.
    - intros c Hc. by apply (ranked_edge rank h l o c). }
  rewrite Hparts. cbn [mbind option_bind]. by eexists.
Qed.

(** X14.  On every store in which every part refers to an object and no
    composer is nested in itself, composers attached at several places or
    not, [build] returns: there are a text, warnings and a store that every
    run gives whose bound on the depth of the nested calls exceeds the rank
    of the composer.  The rank is any measure that goes down from a
    composer to the composers nested in it. *)
Theorem build_of_ranked (rank : loc → nat) (global : string)
    (h : gmap loc instance) (this : loc) (withIntent : bool)
    (indent : option string) :
  ranked rank h →
  is_Some (h !! this) →
  ∃ text log h',
    ∀ fuel, rank this < fuel →
      Heap.build fuel global h this withIntent indent = Some (text, log, h').
Proof.
  intros Hr Hthis.
  destruct (store_build_ranked rank global (S (rank this)) h this
              withIntent indent Hr Hthis) as ([[text log] h'] & Hrun); [lia|].
  exists text, log, h'. intros fuel Hfuel.
  apply (store_build_more_fuel global _ _ _ _ _ _ Hrun). lia.
Qed.

(** X15.  The build on the store and the build by value.  On a store that
    holds a composer as a tree, with fuel for its depth, [build] returns
    the text and the warnings of the build by value; the store then holds
    the composer as the build by value leaves it, and no object outside
    the composer was written. *)
Theorem build_on_tree (fuel : nat) (global : string) (h : gmap loc instance)
    (this : loc) (composer : MessageBuilder) (F : gset loc)
    (withIntent : bool) (indent : option string) :
  repr h this composer F →
  depth composer ≤ fuel →
  ∃ h',
    Heap.build fuel global h this withIntent indent
    = Some (MB.build global withIntent indent composer,
            (build_full global withIntent indent composer).1.2, h')
    ∧ repr h' this (MB.after_build global withIntent indent composer) F
    ∧ ∀ l, l ∉ F → h' !! l = h !! l.
Proof.
  intros Hr Hfuel.
  destruct (build_refines global composer (MB.args composer) h this F
              withIntent indent fuel) as (h' & Hrun & Hrepr & Hframe); [|done|].
  - by rewrite with_args_same.
  - by exists h'.
Qed.

End Facts.
End HeapMore.

(** * Runs on the sample host *)

Module Runs.
Import Str MB PB Heap Spec Samples MBFacts HeapFacts PBFacts.

(** ** The tests of the repository *)

Example test_deeply_nested :
  MB.build "----" false None
    (around None (around None (around None (text_builder "Deep Message"))))
  = "------------Deep Message".
Proof. reflexivity. Qed.

Example test_mixed_content_with_intent :
  MB.build "----" true None
    (Builder None ∅
       [PValue (SStr "First"); PValue (SStr "key: value");
        PBuilder (text_builder "Nested"); PValue (SStr "Last")])
  = join newline ["----First"; "----key: value"; "--------Nested"; "----Last"].
Proof. reflexivity. Qed.

Example test_number_values :
  MB.build "----" false None
    (receiver (addKv "price" (IScalar (SNum 99%Z))
       (receiver (addKv "count" (IScalar (SNum 42%Z)) new_builder))))
  = join newline ["count: 42"; "price: 99"].
Proof. reflexivity. Qed.

Example test_inherited_args :
  MB.build "----" false None
    (receiver (add (IBuilder (msg (Some (inl "Age: {{age}}")) ∅))
       (msg (Some (inl "Name: {{name}}"))
          {[ "name" := VScalar (SStr "John"); "age" := VScalar (SNum 25%Z) ]})))
  = join newline ["Name: John"; "----Age: 25"].
Proof. vm_compute. reflexivity. Qed.

Example test_placeholders :
  buildForAssistant "   " None
    (receiver (userMessage (IScalar (SStr "User msg"))
                 {| opt_placeholder := Some "<placeholder1>"; opt_extra := ∅ |}
       (receiver (systemMessage (IScalar (SStr "System 2")) no_options
          (receiver (systemMessage (IScalar (SStr "System 1")) no_options
             new_prompt))))))
  = {| messages := [{| tm_role := user; tm_content := "User msg" |}];
       context := Some (join newline ["System 1"; "System 2"; "<placeholder1>"]) |}.
Proof. vm_compute. reflexivity. Qed.

Example test_multiple_empty_strings :
  MB.build "----" false None
    (receiver (add (IScalar (SStr "")) (receiver (add (IScalar (SStr "")) new_builder))))
  = newline.
Proof. reflexivity. Qed.

Example test_nested_msg_calls :
  MB.build "----" false None
    (receiver (add (IScalar (SStr "Outer Content"))
       (msg (Some (inr (msg (Some (inl "Inner Content")) ∅))) ∅)))
  = join newline ["----Inner Content"; "Outer Content"].
Proof. reflexivity. Qed.

Example test_mixed_levels :
  MB.build "----" false None
    (receiver (add (IScalar (SStr "L3"))
       (msg (Some (inr
          (receiver (addKv "L2" (IScalar (SStr "value"))
             (msg (Some (inr (msg (Some (inl "L1")) ∅))) ∅))))) ∅)))
  = join newline ["--------L1"; "----L2: value"; "L3"].
Proof. reflexivity. Qed.

Example test_key_value_with_builder :
  MB.build "----" false None
    (receiver (addKv "info"
       (IFunction {| is_async := false; source := "(b) => b.addKv('x', 1)";
                     run := λ b, receiver (addKv "x" (IScalar (SNum 1%Z)) b);
                     settle := id |})
       new_builder))
  = join newline ["info:"; "----x: 1"].
Proof. reflexivity. Qed.

Example test_template_without_argument :
  build_full "----" false None (msg (Some (inl "Hello {{name}}!")) ∅)
  = ("Hello {{name}}!", [warning "name"],
     Builder None ∅ [PValue (SStr "Hello {{name}}!")]).
Proof. reflexivity. Qed.

Example test_async_message_builder :
  PB.build "   " None
    (userMessageAsync
       {| is_async := true;
          source := "async (msg) => { msg.add('Async'); msg.add('Message') }";
          run := λ b, receiver (add (IScalar (SStr "Message"))
                        (receiver (add (IScalar (SStr "Async")) b)));
          settle := id |}
       no_options new_prompt)
  = [{| cm_role := user; cm_content := join newline ["Async"; "Message"];
        cm_placeholder := None |}].
Proof. reflexivity. Qed.

(** [(msg) => (msg.priority as number) < 2] *)
Example test_custom_extra_data :
  buildForAssistant "   "
    (Some (λ m, match extra m !! "priority" with
                | Some (VScalar (SNum n)) => bool_decide (n < 2)%Z
                | _ => false
                end))
    (receiver (userMessage (IScalar (SStr "Medium priority"))
                 {| opt_placeholder := None;
                    opt_extra := {[ "priority" := VScalar (SNum 2%Z) ]} |}
       (receiver (systemMessage (IScalar (SStr "High priority"))
                    {| opt_placeholder := None;
                       opt_extra := {[ "priority" := VScalar (SNum 1%Z) ]} |}
          new_prompt))))
  = {| messages := []; context := Some "High priority" |}.
Proof. vm_compute. reflexivity. Qed.

(** ** C1: a placeholder alone makes a context *)

(** C1 fails as stated: after [userMessage("Q", { placeholder: "<q>" })]
    alone, no [system] turn passes the filter, and the context is ["<q>"],
    not [undefined]. *)
Lemma context_without_system_turn :
  userMessage (IScalar (SStr "Q"))
    {| opt_placeholder := Some "<q>"; opt_extra := ∅ |} new_prompt
  = Normal question_only
  ∧ List.filter (λ m, bool_decide (role m = system)) (_messages question_only) = []
  ∧ context (buildForAssistant "   " None question_only) = Some "<q>".
Proof. vm_compute. done. Qed.

(** ** C2: what the filter is handed *)

(** C2 fails on the code: after [userMessage((b) => { b.add("x") })] the
    turn holds a composer, whose text is ["x"]; a filter that accepts the
    turns whose content is a string is handed the composer and drops the
    turn, from [build] and from [buildForAssistant]. *)
Theorem filter_is_handed_the_composer :
  userMessage (IFunction (adds_text "x")) no_options new_prompt
  = Normal one_built_turn
  ∧ PB.build "   " None one_built_turn
    = [{| cm_role := user; cm_content := "x"; cm_placeholder := None |}]
  ∧ PB.build "   " (Some content_is_text) one_built_turn = []
  ∧ messages (buildForAssistant "   " (Some content_is_text) one_built_turn) = [].
Proof. vm_compute. done. Qed.

(** ** C3: [addKvAsync] *)

(** C3 fails on the code: [addKvAsync("info", async (b) => { b.add("x") })]
    appends the scalar part ["info: [object Object]"], whatever the callback
    put in the child, whose text is ["x"]. *)
Theorem addKvAsync_appends_object_tag :
  addKvAsync "info" (async_adds_text "x") new_builder
  = Builder None ∅ [PValue (SStr "info: [object Object]")]
  ∧ MB.build "   " false None (addKvAsync "info" (async_adds_text "x") new_builder)
    = "info: [object Object]"
  ∧ MB.build "   " false None
      (settle (async_adds_text "x") (run (async_adds_text "x") (msg None ∅)))
    = "x".
Proof. vm_compute. done. Qed.

(** ** C4: [add] and [addKv] with an [async] callback *)

(** C4 fails on the code: with an [async] callback, [add] and [addKv] do
    not throw; they call it and append the child composer. *)
Theorem add_accepts_async_callback :
  add (IFunction (async_adds_text "x")) new_builder
  = Normal (Builder None ∅ [PBuilder (text_builder "x")])
  ∧ addKv "k" (IFunction (async_adds_text "x")) new_builder
    = Normal (Builder None ∅ [PValue (SStr "k:"); PBuilder (text_builder "x")]).
Proof. vm_compute. done. Qed.

(** ** C5 *)

(** [async (b) => { b.add("x") }] handed to the three methods of a
    sequencer that holds one turn. *)
Lemma message_methods_reject_async_witness :
  is_async (async_adds_text "x") = true
  ∧ (userMessage (IFunction (async_adds_text "x")) no_options question_only
     = Thrown question_only
         "Async function cannot be used with non-async message method. Use userMessageAsync instead."
     ∧ systemMessage (IFunction (async_adds_text "x")) no_options question_only
       = Thrown question_only
           "Async function cannot be used with non-async message method. Use systemMessageAsync instead."
     ∧ assistantMessage (IFunction (async_adds_text "x")) no_options question_only
       = Thrown question_only
           "Async function cannot be used with non-async message method. Use assistantMessageAsync instead.").
Proof.
  split; [reflexivity|].
  apply (message_methods_reject_async (async_adds_text "x") no_options question_only).
  reflexivity.
Defined.

(** ** C7 *)

(** The test of the repository with three composers around a text, and the
    indentation ["----"]. *)
Lemma build_lines_witness :
  one_line "----"
  ∧ (MB.build "----" false None deep_message
     = join newline (lines "----" 0 ∅ deep_message)
     ∧ ∀ d a c, lines "----" (S d) a c
                = (λ line, "----" +:+ line) <$> lines "----" d a c).
Proof.
  split; [reflexivity|].
  apply (build_lines "----" false None deep_message). reflexivity.
Defined.

(** C7 fails as stated: with a line break as the indentation, the text at
    depth two is built as three line breaks before ["x"], not as two copies
    of the indentation before it. *)
Lemma build_line_break_indent :
  MB.build "   " false None line_break_indent
  = String nl (String nl (String nl "x"))
  ∧ rep newline 2 +:+ "x" = String nl (String nl "x")
  ∧ join newline (lines newline 0 ∅ line_break_indent) = rep newline 2 +:+ "x"
  ∧ MB.build "   " false None line_break_indent
    ≠ join newline (lines newline 0 ∅ line_break_indent).
Proof. vm_compute. done. Qed.

(** ** C8 *)

(** C8 fails as stated: with a composer that is added to two composers of
    one tree, [build()] twice in a row on the root gives two texts.  The
    first build leaves in the shared composer the keys of both parents. *)
Lemma build_twice_shared_child :
  build_twice 4 "-" shared_child 0 false None
  = Some (join newline ["--1 {{b}}"; "--1 2"], join newline ["--1 2"; "--1 2"])
  ∧ join newline ["--1 {{b}}"; "--1 2"] ≠ join newline ["--1 2"; "--1 2"].
Proof. vm_compute. done. Qed.

(** The store [own_children] holds a tree: its five objects are reached
    once each. *)
Lemma own_children_repr :
  repr own_children 0 own_children_tree own_children_objects.
Proof.
  unfold own_children_objects.
  apply repr_builder with (rps := [RRef 1; RRef 2]); [reflexivity| |set_solver].
  apply repr_ref; [|apply repr_ref; [|apply repr_nil|set_solver]|set_solver].
  - apply repr_builder with (rps := [RRef 3]); [reflexivity| |set_solver].
    apply repr_ref; [|apply repr_nil|set_solver].
    apply repr_builder with (rps := [RValue (SStr "{{a}} {{b}}")]);
      [reflexivity| |set_solver].
    apply repr_value, repr_nil.
  - apply repr_builder with (rps := [RRef 4]); [reflexivity| |set_solver].
    apply repr_ref; [|apply repr_nil|set_solver].
    apply repr_builder with (rps := [RValue (SStr "{{a}} {{b}}")]);
      [reflexivity| |set_solver].
    apply repr_value, repr_nil.
Qed.

(** With a composer of its own under each parent, the two texts are the
    same. *)
Lemma build_twice_same_text_witness :
  repr own_children 0 own_children_tree own_children_objects
  ∧ depth own_children_tree ≤ 4
  ∧ ∃ text, build_twice 4 "-" own_children 0 false None = Some (text, text).
Proof.
  assert (depth own_children_tree ≤ 4) as Hdepth by (vm_compute; lia).
  split; [exact own_children_repr|]. split; [exact Hdepth|].
  exact (build_twice_same_text 4 "-" own_children 0 own_children_tree
           own_children_objects false None own_children_repr Hdepth).
Defined.

Example own_children_twice :
  build_twice 4 "-" own_children 0 false None
  = Some (join newline ["--1 {{b}}"; "--{{a}} 2"],
          join newline ["--1 {{b}}"; "--{{a}} 2"]).
Proof. vm_compute. reflexivity. Qed.

(** ** C9 *)



(** ** C10 *)

Example setup_placeholder_dropped :
  buildForAssistant "   " None
    (replace_system_placeholders (λ _, None) setup_and_question)
  = buildForAssistant "   " None setup_and_question.
Proof. reflexivity. Qed.

Example setup_and_question_context :
  context (buildForAssistant "   " None setup_and_question)
  = Some (join newline ["Setup"; "<q>"]).
Proof. reflexivity. Qed.

(** ** Appended turns and repeated builds *)

Example greeting_turns :
  PB.build "-" None (receiver (push_all greeting_calls named_prompt))
  = [{| cm_role := user; cm_content := "Hello John"; cm_placeholder := None |};
     {| cm_role := system; cm_content := "x"; cm_placeholder := None |}].
Proof. vm_compute. reflexivity. Qed.

Lemma build_after_any_build_witness :
  reads_no_content (Some user_turns)
  ∧ PB.build "-" (Some user_turns) (PB.after_build "  " None one_built_turn)
    = PB.build "-" (Some user_turns) one_built_turn
  ∧ buildForAssistant "-" (Some user_turns) (PB.after_build "  " None one_built_turn)
    = buildForAssistant "-" (Some user_turns) one_built_turn.
Proof.
  assert (reads_no_content (Some user_turns)) as Hfilter
    by (intros m c; reflexivity).
  split; [exact Hfilter|].
  exact (PBMore.build_after_any_build "-" "  " (Some user_turns) None
           one_built_turn Hfilter).
Defined.

(** A synchronous callback is rejected for the word in its source text. *)
Example sync_callback_rejected :
  userMessage (IFunction sync_named_async) no_options new_prompt
  = Thrown new_prompt
      "Async function cannot be used with non-async message method. Use userMessageAsync instead.".
Proof. vm_compute. reflexivity. Qed.

(** ** Builds on a store with a shared composer *)

Lemma build_grows_witness :
  ∃ text log h1,
    Heap.build 4 "-" shared_child 0 false None = Some (text, log, h1)
    ∧ grown shared_child h1
    ∧ h1 !! 0 = shared_child !! 0
    ∧ (∀ l, ¬ reaches shared_child 0 l → h1 !! l = shared_child !! l)
    ∧ handed_down shared_child h1.
Proof.
  destruct (Heap.build 4 "-" shared_child 0 false None)
    as [[[text log] h1]|] eqn:Hrun.
  - exists text, log, h1. split; [reflexivity|].
    exact (HeapMore.build_grows 4 "-" shared_child 0 false None text log h1 Hrun).
  - vm_compute in Hrun. discriminate Hrun.
Defined.

Lemma build_settles_witness :
  ∃ text log h1,
    Heap.build 4 "-" shared_child 0 false None = Some (text, log, h1)
    ∧ ∃ text' log',
        Heap.build 4 "-" h1 0 false None = Some (text', log', h1).
Proof.
  destruct (Heap.build 4 "-" shared_child 0 false None)
    as [[[text log] h1]|] eqn:Hrun.
  - exists text, log, h1. split; [reflexivity|].
    exact (HeapMore.build_settles 4 "-" "-" shared_child 0 false false None None
             text log h1 Hrun).
  - vm_compute in Hrun. discriminate Hrun.
Defined.

Lemma build_of_cycle_witness :
  reaches nested_in_itself 0 0
  ∧ Heap.build 9 "-" nested_in_itself 0 false None = None.
Proof.
  assert (reaches nested_in_itself 0 0) as Hcycle.
  { apply reaches_further with (instance_of ∅ [RRef 1]) 1;
      [reflexivity|apply list_elem_of_here|].
    apply reaches_part with (instance_of ∅ [RValue (SStr "text"); RRef 0]);
      [reflexivity|apply list_elem_of_further, list_elem_of_here]. }
  split; [exact Hcycle|].
  exact (HeapMore.build_of_cycle 9 "-" nested_in_itself 0 false None Hcycle).
Defined.

Lemma build_of_ranked_witness :
  ranked (λ l, 4 - l) shared_child
  ∧ is_Some (shared_child !! 0)
  ∧ ∃ text log h',
      ∀ fuel, 4 - 0 < fuel →
        Heap.build fuel "-" shared_child 0 false None = Some (text, log, h').
Proof.
  assert (ranked (λ l, 4 - l) shared_child) as Hranked.
  { unfold ranked. apply (bool_decide_unpack _). vm_compute. exact I. }
  assert (is_Some (shared_child !! 0)) as Hroot by (vm_compute; eauto).
  split; [exact Hranked|]. split; [exact Hroot|].
  exact (HeapMore.build_of_ranked (λ l, 4 - l) "-" shared_child 0 false None
           Hranked Hroot).
Defined.

Lemma build_on_tree_witness :
  repr own_children 0 own_children_tree own_children_objects
  ∧ depth own_children_tree ≤ 4
  ∧ ∃ h',
      Heap.build 4 "-" own_children 0 false None
      = Some (MB.build "-" false None own_children_tree,
              (build_full "-" false None own_children_tree).1.2, h')
      ∧ repr h' 0 (MB.after_build "-" false None own_children_tree)
          own_children_objects
      ∧ ∀ l, l ∉ own_children_objects → h' !! l = own_children !! l.
Proof.
  assert (depth own_children_tree ≤ 4) as Hdepth by (vm_compute; lia).
  split; [exact own_children_repr|]. split; [exact Hdepth|].
  exact (HeapMore.build_on_tree 4 "-" own_children 0 own_children_tree
           own_children_objects false None own_children_repr Hdepth).
Defined.

End Runs.
